(** * Matrix-multiply cache benchmark: a shallow embedding of
      [matrix_product.cpp] and the properties of its kernels.

    The three routines [buildTranspose], [multiplyNaive] and
    [multiplyWithTranspose] take their vectors by reference, so they are
    embedded as partial state transformers over a store of vectors: a
    reference is a key of the store, a read or write outside a vector has
    no result ([None]).  The element type and its arithmetic are kept
    abstract in the first part (the kernels only move elements around and
    combine them with [+] and [*] in a fixed order); the second part
    instantiates them with IEEE-754 binary64. *)

From Stdlib Require Import ZArith Zpower Lia String Ascii SpecFloat.
From stdpp Require Import base option list list_numbers gmap strings pretty sorting.

Open Scope Z_scope.

(** ** Generic loop and indexing machinery *)

(** [for (int i = 0; i < n; i++) body], with the loop-carried state made
    explicit; the body may fail. *)
Fixpoint for_each {S : Type} (body : Z → S → option S) (idxs : list Z) (s : S)
  : option S :=
  match idxs with
  | [] => Some s
  | i :: rest => s' ← body i s; for_each body rest s'
  end.

Definition for_int {S : Type} (n : Z) (body : Z → S → option S) (s : S)
  : option S :=
  for_each body (seqZ 0 n) s.

(** The lambda [index] that each routine declares: [row * n + col].  The
    source computes it in [int]; this is its value on every call free of
    signed overflow, that is for [n * n ≤ INT_MAX] ([index_fits_int],
    [index_fits_int_iff]), the domain of the statements on the
    routines. *)
Definition index (n row col : Z) : Z := row * n + col.

(** [v[i]] for a [std::vector] with a signed index: no result outside
    [0 .. size). *)
Definition at_ {A : Type} (xs : list A) (i : Z) : option A :=
  if decide (0 ≤ i) then xs !! Z.to_nat i else None.

(** Largest value of the C++ [int] on the benchmark's targets. *)
Definition INT_MAX : Z := 2147483647.

(** [s.find(pat)] of [std::string]: the position of the first occurrence
    of [pat] in [s]; [None] stands for [std::string::npos]. *)
Fixpoint find_at (pat s : string) (pos : nat) : option nat :=
  if String.prefix pat s then Some pos
  else match s with
       | EmptyString => None
       | String _ s' => find_at pat s' (S pos)
       end.

Definition find (s pat : string) : option nat := find_at pat s 0.

Definition npos : option nat := None.

(** The mode scan at the top of [main]:
    [for (i = 0; i < argc; i++) transposeMode |= string(argv[i]).find("transpose") != npos;] *)
Definition transposeMode (argv : list string) : bool :=
  fold_left (λ mode s, mode || bool_decide (find s "transpose" ≠ npos))
            argv false.

(** Rendering of integers by [std::cout]: decimal by default, lower-case
    hexadecimal without prefix after [std::hex]. *)
Definition hex_digit (d : Z) : ascii :=
  default "0"%char (String.get (Z.to_nat d) "0123456789abcdef").

Fixpoint hex_go (fuel : nat) (x : Z) (acc : string) : string :=
  match fuel with
  | O => acc
  | S fuel' =>
      let acc' := String (hex_digit (x `mod` 16)) acc in
      if decide (x `div` 16 = 0) then acc' else hex_go fuel' (x `div` 16) acc'
  end.

(** A [uint64_t] has at most sixteen hexadecimal digits. *)
Definition hex (x : Z) : string := hex_go 16 x "".

Definition newline : string := String (ascii_of_nat 10) EmptyString.

(** The two lines a run prints. *)
Definition report (label : string) (ms bits : Z) : string :=
  label +:+ " ms: " +:+ pretty ms +:+ newline +:+
  "checksum: " +:+ hex bits +:+ newline.

(** What a run of the process receives from outside: its arguments, the
    entropy [std::random_device] would deliver, and the two readings of
    [steady_clock::now()] around the timed region, in nanoseconds. *)
Record env := Env {
  argv : list string;
  entropy : Z;
  now_start : Z;
  now_end : Z
}.

(** [duration_cast<milliseconds>(end - start).count()] *)
Definition elapsed_ms (e : env) : Z := (now_end e - now_start e) `quot` 1000000.

(** Identity of a [std::vector<double>] object. *)
Definition vecref := positive.

(** The five vectors [main] declares. *)
Definition mul1 : vecref := 1%positive.
Definition mul2 : vecref := 2%positive.
Definition resA : vecref := 3%positive.
Definition resB : vecref := 4%positive.
Definition mul2T : vecref := 5%positive.

Inductive kernel := BuildTranspose | MultiplyNaive | MultiplyWithTranspose.

(** What an execution leaves behind besides the vectors: the element
    writes it performed and the routines it entered, in order. *)
Inductive event :=
  | Store (v : vecref) (i : Z)
  | Call (k : kernel).

(** The routines a log records as entered, in order, and those of them
    that are multiplication kernels. *)
Definition calls (lg : list event) : list kernel :=
  omap (λ e, match e with Call k => Some k | Store _ _ => None end) lg.

Definition is_multiply (k : kernel) : bool :=
  match k with
  | BuildTranspose => false
  | MultiplyNaive | MultiplyWithTranspose => true
  end.

Definition multiplications (lg : list event) : list kernel :=
  List.filter is_multiply (calls lg).

(** [s] contains [pat] as a substring. *)
Definition contains (s pat : string) : Prop :=
  ∃ pre post, s = pre +:+ pat +:+ post.

Section Kernels.
Context {D : Type}.
Variable dzero : D.
Variables dadd dmul : D → D → D.

Record state := State {
  vecs : gmap vecref (list D);
  log : list event
}.

Definition load (v : vecref) (i : Z) (σ : state) : option D :=
  xs ← vecs σ !! v; at_ xs i.

Definition store (v : vecref) (i : Z) (x : D) (σ : state) : option state :=
  xs ← vecs σ !! v;
  if decide (0 ≤ i < Z.of_nat (length xs)) then
    Some (State (<[v := <[Z.to_nat i := x]> xs]> (vecs σ))
                (log σ ++ [Store v i]))
  else None.

Definition enter (k : kernel) (σ : state) : state :=
  State (vecs σ) (log σ ++ [Call k]).

(** [void buildTranspose(const vector<double>& mul, vector<double>& mulT, int n)] *)
Definition buildTranspose (mul mulT : vecref) (n : Z) (σ : state)
  : option state :=
  for_int n (λ i,
    for_int n (λ j σ,
      x ← load mul (index n j i) σ;
      store mulT (index n i j) x σ))
    (enter BuildTranspose σ).

(** The innermost loop of [multiplyNaive]: [sum += mul1[i,k] * mul2[k,j]]. *)
Definition dotNaive (mul1 mul2 : vecref) (n i j : Z) (σ : state)
  : option D :=
  for_int n (λ k sum,
    a ← load mul1 (index n i k) σ;
    b ← load mul2 (index n k j) σ;
    Some (dadd sum (dmul a b)))
    dzero.

(** [void multiplyNaive(const vector<double>& mul1, const vector<double>& mul2,
                        vector<double>& res, int n)] *)
Definition multiplyNaive (mul1 mul2 res : vecref) (n : Z) (σ : state)
  : option state :=
  for_int n (λ i,
    for_int n (λ j σ,
      sum ← dotNaive mul1 mul2 n i j σ;
      store res (index n i j) sum σ))
    (enter MultiplyNaive σ).

(** The innermost loop of [multiplyWithTranspose]:
    [sum += mul1[i,k] * mul2T[j,k]]. *)
Definition dotTransposed (mul1 mul2T : vecref) (n i j : Z) (σ : state)
  : option D :=
  for_int n (λ k sum,
    a ← load mul1 (index n i k) σ;
    b ← load mul2T (index n j k) σ;
    Some (dadd sum (dmul a b)))
    dzero.

(** [void multiplyWithTranspose(const vector<double>& mul1,
      const vector<double>& mul2T, vector<double>& res, int n)] *)
Definition multiplyWithTranspose (mul1 mul2T res : vecref) (n : Z)
    (σ : state) : option state :=
  for_int n (λ i,
    for_int n (λ j σ,
      sum ← dotTransposed mul1 mul2T n i j σ;
      store res (index n i j) sum σ))
    (enter MultiplyWithTranspose σ).

(** The checksum loop of [main]:
    [for (int i = 0; i < n * n; i++) checksum += res[i];] *)
Definition checksum (res : vecref) (n : Z) (σ : state) : option D :=
  for_int (n * n) (λ i c, x ← load res i σ; Some (dadd c x)) dzero.

(** *** Closed forms of the results

    [cell xs i] is [xs[i]] read as a value, for indices known to be in
    range.  [dot] is the sum over [k] as the specification writes it,
    accumulated from the left in increasing [k]: with rounding
    arithmetic the order is part of the value. *)
Definition cell (xs : list D) (i : Z) : D := default dzero (at_ xs i).

Definition ordered_sum (n : Z) (term : Z → D) : D :=
  fold_left (λ sum k, dadd sum (term k)) (seqZ 0 n) dzero.

Definition dot (A B : list D) (n i j : Z) : D :=
  ordered_sum n (λ k, dmul (cell A (index n i k)) (cell B (index n k j))).

(** The same sum with the second operand read along row [j], as the
    transposed kernel reads it. *)
Definition dot_rows (A T : list D) (n i j : Z) : D :=
  ordered_sum n (λ k, dmul (cell A (index n i k)) (cell T (index n j k))).

(** Row-major layout of an [n]×[n] matrix given cell by cell. *)
Definition tabulate (n : Z) (f : Z → Z → D) : list D :=
  (λ p, f (p `div` n) (p `mod` n)) <$> seqZ 0 (n * n).

Definition product (A B : list D) (n : Z) : list D :=
  tabulate n (dot A B n).

Definition transposed (M : list D) (n : Z) : list D :=
  tabulate n (λ i j, cell M (index n j i)).

(** The [n]×[n] identity matrix over a given unit element. *)
Definition identity (one : D) (n : Z) : list D :=
  tabulate n (λ i j, if decide (i = j) then one else dzero).

(** Sum of all entries in storage order, as the checksum loop forms it. *)
Definition total (xs : list D) : D := fold_left dadd xs dzero.

(** The state of a row-major sweep that has written the first [p] cells
    of [res] with the values [f] gives them, starting from the vectors
    [m0] (where [res] held [R0]) and the log [lg0]. *)
Definition swept (res : vecref) (f : Z → Z → D) (n : Z) (R0 : list D)
    (m0 : gmap vecref (list D)) (lg0 : list event) (p : Z) : state :=
  State (<[res := take (Z.to_nat p) (tabulate n f) ++ drop (Z.to_nat p) R0]> m0)
        (lg0 ++ (Store res <$> seqZ 0 p)).

(** The reference [v] denotes the vector [xs], of [n * n] elements. *)
Definition holds (n : Z) (σ : state) (v : vecref) (xs : list D) : Prop :=
  vecs σ !! v = Some xs ∧ Z.of_nat (length xs) = n * n.

Definition sized (n : Z) (σ : state) (v : vecref) : Prop :=
  ∃ xs, holds n σ v xs.

(** *** The harness

    The pieces of the C++ standard library that [main] uses and whose
    code is not part of the repository are parameters: the state of a
    [std::mt19937], its seeding constructor, one draw of
    [uniform_real_distribution<double>(0.0, 1.0)] from it, and the
    reinterpretation of a [double] as a [uint64_t]. *)
Context {rng : Type}.
Variable mt19937 : Z → rng.
Variable dist : rng → D * rng.
Variable bits : D → Z.

(** [std::vector<double> v(n * n)]: value-initialised elements. *)
Definition zeros (n : Z) : list D := replicate (Z.to_nat (n * n)) dzero.

Definition alloc (n : Z) : state :=
  State (<[mul1 := zeros n]> (<[mul2 := zeros n]> (<[resA := zeros n]>
          (<[resB := zeros n]> (<[mul2T := zeros n]> ∅))))) [].

(** The five vectors of [main] with given contents of the two inputs. *)
Definition with_inputs (A B : list D) (n : Z) : state :=
  State (<[mul1 := A]> (<[mul2 := B]> (<[resA := zeros n]>
          (<[resB := zeros n]> (<[mul2T := zeros n]> ∅))))) [].

(** [for (int i = 0; i < n * n; i++) v[i] = dist(gen);] *)
Definition fill (v : vecref) (n : Z) (σg : state * rng)
  : option (state * rng) :=
  for_int (n * n) (λ i σg,
    let '(x, g') := dist σg.2 in
    σ' ← store v i x σg.1;
    Some (σ', g'))
    σg.

(** The seed [main] passes to the generator; the [random_device] it
    also constructs is never read. *)
Definition seed : Z := 89899898.

Definition generate (s : Z) (n : Z) : option (state * rng) :=
  σg ← fill mul1 n (alloc n, mt19937 s);
  fill mul2 n σg.

(** The first [k] draws from a generator, and the generator after them. *)
Fixpoint draws (k : nat) (g : rng) : list D * rng :=
  match k with
  | O => ([], g)
  | S k' => let '(x, g') := dist g in
            let '(xs, g'') := draws k' g' in (x :: xs, g'')
  end.

(** What generation from seed [s] puts into [mul1] and [mul2]. *)
Definition input1 (s n : Z) : list D :=
  (draws (Z.to_nat (n * n)) (mt19937 s)).1.

Definition input2 (s n : Z) : list D :=
  (draws (Z.to_nat (n * n)) (draws (Z.to_nat (n * n)) (mt19937 s)).2).1.

Record outcome := Outcome {
  final : state;
  stdout : string;
  status : Z
}.

(** [main] with its constant [n] as a parameter.  [sleep] and
    [flushCache] touch nothing but their own locals and leave no mark
    on the state. *)
Definition main_n (n : Z) (e : env) : option outcome :=
  let mode := transposeMode (argv e) in
  σg ← generate seed n;
  if negb mode then
    σ ← multiplyNaive mul1 mul2 resA n σg.1;
    checksumA ← checksum resA n σ;
    Some (Outcome σ (report "naive" (elapsed_ms e) (bits checksumA)) 0)
  else
    σ ← buildTranspose mul2 mul2T n σg.1;
    σ ← multiplyWithTranspose mul1 mul2T resB n σ;
    checksumB ← checksum resB n σ;
    Some (Outcome σ (report "transposed" (elapsed_ms e) (bits checksumB)) 0).

(** [const int n = 2'000;] *)
Definition main (e : env) : option outcome := main_n 2000 e.

End Kernels.

(** ** IEEE-754 binary64

    The [double] of the benchmark's targets, as the standard library's
    executable specification of binary floating point gives it (53 bits
    of precision, round to nearest even). *)
Module B64.
Definition double : Type := spec_float.
Definition prec : Z := 53.
Definition emax : Z := 1024.

Definition add : double → double → double := SFadd prec emax.
Definition mul : double → double → double := SFmul prec emax.
Definition zero : double := S754_zero false.
Definition one : double := S754_finite false 4503599627370496 (-52).
Definition inf : double := S754_infinity false.

(** The double nearest to an integer (exact up to [2^53]). *)
Definition of_Z (z : Z) : double := binary_normalize prec emax z 0 false.

(** A finite double other than the negative zero; [bounded] is
    well-formedness: a canonical mantissa and an exponent in range. *)
Definition plain (x : double) : bool :=
  match x with
  | S754_zero s => negb s
  | S754_finite _ m e => bounded prec emax m e
  | _ => false
  end.

Definition is_zero (x : double) : bool :=
  match x with S754_zero _ => true | _ => false end.

(** The value of a non-negative finite double [m * 2^e] counted in units
    of [2^-1074], the least positive double: an integer for every
    exponent a double can have. *)
Definition ulps (m : positive) (e : Z) : Z := Z.pos m * 2 ^ (e + 1074).

(** [x] is finite and [0 ≤ x ≤ K], for an integer [K]. *)
Definition within (x : double) (K : Z) : bool :=
  match x with
  | S754_zero _ => bool_decide (0 ≤ K)
  | S754_finite false m e =>
      bool_decide (-1074 ≤ e) && bool_decide (ulps m e ≤ K * 2 ^ 1074)
  | _ => false
  end.

(** [x] is a well-formed double with [0 ≤ x < 1]. *)
Definition in_unit (x : double) : bool :=
  match x with
  | S754_zero _ => true
  | S754_finite false m e =>
      bounded prec emax m e && bool_decide (ulps m e < 2 ^ 1074)
  | _ => false
  end.

(** The double nearest to the fraction [p / q]. *)
Definition frac (p q : Z) : double := SFdiv prec emax (of_Z p) (of_Z q).

Definition sign_bit (s : bool) : Z := if s then 2 ^ 63 else 0.

(** [*reinterpret_cast<uint64_t*>(&x)].  [spec_float] does not record
    the payload of a NaN; the quiet NaN with an empty payload stands
    for all of them. *)
Definition bits (x : double) : Z :=
  match x with
  | S754_zero s => sign_bit s
  | S754_infinity s => sign_bit s + 0x7ff0000000000000
  | S754_nan => 0x7ff8000000000000
  | S754_finite s m e =>
      sign_bit s +
      (if decide (2 ^ 52 ≤ Z.pos m)
       then (e + 1075) * 2 ^ 52 + (Z.pos m - 2 ^ 52)
       else Z.pos m)
  end.
End B64.

(** ** A small instance to run

    Two 2×2 matrices with entries in [[0, 1)], and a linear congruential
    generator standing in for the library's, so that the kernels and the
    harness can be evaluated on binary64 at a small size. *)
Module Demo.
Definition A : list B64.double :=
  [B64.frac 1 2; B64.frac 1 4; B64.frac 3 4; B64.frac 1 8].
Definition B : list B64.double :=
  [B64.frac 1 10; B64.frac 1 5; B64.frac 3 10; B64.frac 7 10].

Definition σ : @state B64.double := with_inputs B64.zero A B 2.

Definition lcg (g : Z) : Z := (1103515245 * g + 12345) `mod` 2 ^ 31.
Definition dist (g : Z) : B64.double * Z :=
  (B64.frac (lcg g) (2 ^ 31), lcg g).

Definition main_n : Z → env → option (@outcome B64.double) :=
  main_n B64.zero B64.add B64.mul (λ s, s) dist B64.bits.
End Demo.

(** ** The cache flusher

    [flushCache] of [matrix_product.cpp]: a buffer of [flushSize] chars,
    value-initialised, summed into a [volatile uint64_t]. *)
Definition flushSize : Z := 300 * 1024 * 1024.

(** [for (size_t i = 0; i < buffer.size(); i++) sum = sum + buffer[i];]
    with [sum] a [uint64_t]: the addition wraps at [2^64]. *)
Definition flushSum (buffer : list Z) : option Z :=
  for_int (Z.of_nat (length buffer))
    (λ i sum, b ← at_ buffer i; Some ((sum + b) `mod` 2 ^ 64)) 0.

Definition flushCache : option Z :=
  flushSum (replicate (Z.to_nat flushSize) 0).

(** Sum of a list of integers. *)
Definition sumZ (xs : list Z) : Z := foldr Z.add 0 xs.

(** A generator whose every draw is one half: the simplest one that
    stays in the unit interval. *)
Definition half_dist (g : Z) : B64.double * Z := (B64.frac 1 2, g + 1).

(** ** The branch-prediction demonstration

    The second program of the repository: it fills an array with
    [std::rand() % 256], sorts it, and adds up, [passes] times over, the
    elements that are at least 128.  [std::rand], [std::sort] and the
    clock are library code: the values [rand] returns are an input,
    [std::sort] is the sorted rearrangement of the array, which merge
    sort computes, and the text printed for the elapsed time is an
    input. *)
Module Branch.
Definition arraySize : Z := 32768.
Definition passes : Z := 100000.

(** Range of [long long]; signed overflow has no defined result. *)
Definition LLONG_MAX : Z := 2 ^ 63 - 1.
Definition LLONG_MIN : Z := - 2 ^ 63.

Definition add_ll (a b : Z) : option Z :=
  if decide (LLONG_MIN ≤ a + b ≤ LLONG_MAX) then Some (a + b) else None.

(** The array [data] of [main]. *)
Definition data : vecref := 1%positive.

(** [for (unsigned c = 0; c < arraySize; ++c) data[c] = std::rand() % 256;]
    where [rand c] is the value of the [c]-th call; [%] truncates. *)
Definition fill_data (size : Z) (rand : Z → Z) (σ : @state Z)
  : option (@state Z) :=
  for_int size (λ c σ, store data c (Z.rem (rand c) 256) σ) σ.

(** [std::sort(data, data + arraySize);] *)
Definition sort_data (σ : @state Z) : option (@state Z) :=
  xs ← vecs σ !! data;
  Some (State (<[data := merge_sort Z.le xs]> (vecs σ)) (log σ)).

(** The primary loop:
    [for (unsigned c = 0; c < arraySize; ++c) if (data[c] >= 128) sum += data[c];] *)
Definition pass (size : Z) (σ : @state Z) (sum : Z) : option Z :=
  for_int size (λ c sum,
    x ← load data c σ;
    if decide (128 ≤ x) then add_ll sum x else Some sum)
    sum.

(** [for (unsigned i = 0; i < 100000; ++i) ...] from [sum = 0]. *)
Definition test (iters size : Z) (σ : @state Z) : option Z :=
  for_int iters (λ _ sum, pass size σ sum) 0.

(** [main] with its two constants as parameters.  [junk] is what the
    uninitialised array holds at first; [sorting] is [true] for the
    program as it is and [false] for the program without its call of
    [std::sort], the experiment its comment proposes. *)
Definition main_n (iters size : Z) (rand : Z → Z) (junk : list Z)
    (elapsed : string) (sorting : bool) : option (Z * string) :=
  σ ← fill_data size rand (State {[data := junk]} []);
  σ ← (if sorting then sort_data σ else Some σ);
  sum ← test iters size σ;
  Some (sum, elapsed +:+ newline +:+ "sum = " +:+ pretty sum +:+ newline).

Definition main (rand : Z → Z) (junk : list Z) (elapsed : string)
  : option (Z * string) :=
  main_n passes arraySize rand junk elapsed true.

(** The array after the fill loop, and the sum of the elements of an
    array that pass the test [>= 128]. *)
Definition bytes (size : Z) (rand : Z → Z) : list Z :=
  (λ c, rand c `mod` 256) <$> seqZ 0 size.

Definition high_sum (xs : list Z) : Z :=
  sumZ (List.filter (λ x, bool_decide (128 ≤ x)) xs).
End Branch.

(** * Properties *)

(** ** Index arithmetic *)

Lemma index_bound n row col :
  0 ≤ row < n → 0 ≤ col < n → 0 ≤ index n row col < n * n.
Proof. unfold index. nia. Qed.

Lemma index_div n row col : 0 ≤ col < n → index n row col `div` n = row.
Proof.
  intros Hc. unfold index.
  rewrite Z.div_add_l by lia. rewrite Z.div_small by lia. lia.
Qed.

Lemma index_mod n row col : 0 ≤ col < n → index n row col `mod` n = col.
Proof.
  intros Hc. unfold index.
  rewrite Z.add_comm, Z.mod_add by lia. apply Z.mod_small; lia.
Qed.

Lemma index_inj n r1 c1 r2 c2 :
  0 ≤ c1 < n → 0 ≤ c2 < n → index n r1 c1 = index n r2 c2 → r1 = r2 ∧ c1 = c2.
Proof.
  intros H1 H2 Heq. split.
  - rewrite <- (index_div n r1 c1), <- (index_div n r2 c2) by done. by rewrite Heq.
  - rewrite <- (index_mod n r1 c1), <- (index_mod n r2 c2) by done. by rewrite Heq.
Qed.

Lemma index_of_div_mod n p : 0 < n → index n (p `div` n) (p `mod` n) = p.
Proof. intros Hn. unfold index. pose proof (Z.div_mod p n). lia. Qed.

(** The [int] computations of the routines stay within [int] whenever
    [n * n] does: the unbounded integers of the embedding agree with the
    machine's on every run free of signed overflow. *)
Lemma index_fits_int n row col :
  n * n ≤ INT_MAX → 0 ≤ row < n → 0 ≤ col < n →
  0 ≤ row * n ≤ INT_MAX ∧ 0 ≤ index n row col ≤ INT_MAX.
Proof. unfold index. nia. Qed.

(** The bound is sharp: the index of every cell is an [int] exactly when
    [n * n] is one.  From [n = 46341] on, the index of the last cell is
    above [INT_MAX] and the routines of the source overflow. *)
Lemma index_fits_int_iff n :
  0 < n →
  (∀ row col, 0 ≤ row < n → 0 ≤ col < n → index n row col ≤ INT_MAX)
  ↔ n * n ≤ INT_MAX.
Proof.
  intros Hn. split.
  - intros H. specialize (H (n - 1) (n - 1) ltac:(lia) ltac:(lia)).
    unfold index, INT_MAX in *.
    destruct (decide (n ≤ 46340)) as [Hle|Hgt]; [nia|].
    assert (46341 * 46341 ≤ n * n) by nia. lia.
  - intros Hsq row col Hrow Hcol. by apply index_fits_int.
Qed.

Example index_beyond_int :
  INT_MAX < 46341 * 46341 ∧ INT_MAX < index 46341 46340 46340.
Proof. by vm_compute. Qed.

(** ** Loops *)

Section Loops.
Context {S : Type}.
Implicit Types (body : Z → S → option S) (s : S).

Lemma for_each_app body l1 l2 s :
  for_each body (l1 ++ l2) s = for_each body l1 s ≫= for_each body l2.
Proof.
  revert s. induction l1 as [|i l1 IH]; intros s; simpl; [done|].
  destruct (body i s) as [s'|]; simpl; [apply IH | done].
Qed.

Lemma for_int_nonpos n body s : n ≤ 0 → for_int n body s = Some s.
Proof. intros Hn. unfold for_int. by rewrite seqZ_nil. Qed.

Lemma for_int_succ n body s :
  0 ≤ n → for_int (n + 1) body s = for_int n body s ≫= body n.
Proof.
  intros Hn. unfold for_int.
  rewrite seqZ_app, for_each_app by lia.
  destruct (for_each body (seqZ 0 n) s) as [s'|]; simpl; [|done].
  replace (Z.of_nat 0 + (0 + n)) with n by lia.
  by destruct (body n s').
Qed.

(** Invariant rule: a loop whose body never fails under the invariant
    and re-establishes it for the next index runs to completion. *)
Lemma for_int_inv (I : Z → S → Prop) n body s :
  0 ≤ n → I 0 s →
  (∀ i t, 0 ≤ i < n → I i t → ∃ t', body i t = Some t' ∧ I (i + 1) t') →
  ∃ t, for_int n body s = Some t ∧ I n t.
Proof.
  intros Hn H0 Hstep.
  assert (∀ k, 0 ≤ k → k ≤ n → ∃ t, for_int k body s = Some t ∧ I k t)
    as Hall; [|apply Hall; lia].
  intros k Hk. pattern k. apply natlike_ind; [| |done].
  - intros _. exists s. by rewrite for_int_nonpos.
  - intros m Hm IH Hle. destruct IH as (t & Hrun & Ht); [lia|].
    destruct (Hstep m t) as (t' & Hbody & Ht'); [lia|done|].
    exists t'. unfold Z.succ. rewrite for_int_succ, Hrun by done. done.
Qed.

End Loops.

(** ** Vectors *)

Lemma at_lookup {A} (xs : list A) i : 0 ≤ i → at_ xs i = xs !! Z.to_nat i.
Proof. intros Hi. unfold at_. by rewrite decide_True. Qed.

Lemma at_is_Some {A} (xs : list A) i :
  is_Some (at_ xs i) ↔ 0 ≤ i < Z.of_nat (length xs).
Proof.
  unfold at_. destruct (decide (0 ≤ i)) as [Hi|Hi].
  - rewrite lookup_lt_is_Some. lia.
  - split; [by intros [? ?] | lia].
Qed.

Lemma insert_take_drop {A} (T R : list A) (p : nat) x :
  T !! p = Some x → (p < length R)%nat →
  <[p := x]> (take p T ++ drop p R) = take (S p) T ++ drop (S p) R.
Proof.
  intros HT HR.
  pose proof (lookup_lt_Some _ _ _ HT) as HTlen.
  destruct (lookup_lt_is_Some_2 R p HR) as [y Hy].
  rewrite insert_app_r_alt; rewrite length_take; [|lia].
  replace (p - p `min` length T)%nat with 0%nat by lia.
  rewrite (drop_S R y p Hy). simpl.
  rewrite (take_S_r T p x HT). by rewrite <- app_assoc.
Qed.

Section KernelFacts.
Context {D : Type}.
Variable dzero : D.
Variables dadd dmul : D → D → D.

Local Abbreviation state := (@state D).
Local Abbreviation cell := (cell dzero).
Local Abbreviation dot := (dot dzero dadd dmul).
Local Abbreviation product := (product dzero dadd dmul).
Local Abbreviation transposed := (transposed dzero).
Local Abbreviation total := (total dzero dadd).

(** The closed forms, unfolded one step. *)
Lemma cell_eq (xs : list D) i : cell xs i = default dzero (at_ xs i).
Proof. reflexivity. Qed.

Lemma transposed_eq (M : list D) n :
  transposed M n = tabulate n (λ i j, cell M (index n j i)).
Proof. reflexivity. Qed.

Lemma product_eq (A B : list D) n : product A B n = tabulate n (dot A B n).
Proof. reflexivity. Qed.

Lemma dot_eq (A B : list D) n i j :
  dot A B n i j
  = fold_left (λ sum k, dadd sum (dmul (cell A (index n i k))
                                       (cell B (index n k j))))
              (seqZ 0 n) dzero.
Proof. reflexivity. Qed.

Lemma length_tabulate n (f : Z → Z → D) :
  length (tabulate n f) = Z.to_nat (n * n).
Proof. unfold tabulate. by rewrite length_fmap, length_seqZ. Qed.

Lemma length_transposed (M : list D) n :
  0 ≤ n → Z.of_nat (length (transposed M n)) = n * n.
Proof. intros Hn. rewrite transposed_eq, length_tabulate. lia. Qed.

Lemma length_product (A B : list D) n :
  0 ≤ n → Z.of_nat (length (product A B n)) = n * n.
Proof. intros Hn. rewrite product_eq, length_tabulate. lia. Qed.

Lemma lookup_tabulate n (f : Z → Z → D) p :
  0 ≤ p < n * n →
  tabulate n f !! Z.to_nat p = Some (f (p `div` n) (p `mod` n)).
Proof.
  intros Hp. unfold tabulate. rewrite list_lookup_fmap.
  rewrite lookup_seqZ_lt by lia. simpl. by rewrite Z2Nat.id, Z.add_0_l by lia.
Qed.

Lemma at_tabulate n (f : Z → Z → D) i j :
  0 ≤ i < n → 0 ≤ j < n → at_ (tabulate n f) (index n i j) = Some (f i j).
Proof.
  intros Hi Hj. pose proof (index_bound n i j Hi Hj).
  rewrite at_lookup, lookup_tabulate by lia.
  by rewrite index_div, index_mod.
Qed.

Lemma at_transposed (M : list D) n i j :
  0 ≤ i < n → 0 ≤ j < n →
  at_ (transposed M n) (index n i j) = Some (cell M (index n j i)).
Proof. intros Hi Hj. by rewrite transposed_eq, at_tabulate. Qed.

Lemma at_product (A B : list D) n i j :
  0 ≤ i < n → 0 ≤ j < n →
  at_ (product A B n) (index n i j) = Some (dot A B n i j).
Proof. intros Hi Hj. by rewrite product_eq, at_tabulate. Qed.

Lemma at_cell (xs : list D) i :
  0 ≤ i < Z.of_nat (length xs) → at_ xs i = Some (cell xs i).
Proof.
  intros Hi. apply at_is_Some in Hi as [x Hx]. rewrite cell_eq.
  by rewrite Hx.
Qed.

Lemma Forall_cell (P : D → Prop) (B : list D) n k j :
  Forall P B → Z.of_nat (length B) = n * n →
  0 ≤ k < n → 0 ≤ j < n → P (cell B (index n k j)).
Proof.
  intros HB Hlen Hk Hj. pose proof (index_bound n k j Hk Hj) as Hp.
  destruct (proj2 (at_is_Some B (index n k j))) as [x Hx]; [lia|].
  rewrite cell_eq, Hx. simpl. rewrite at_lookup in Hx by lia.
  eapply Forall_lookup_1; eauto.
Qed.

Lemma load_vec v i (σ : state) xs :
  vecs σ !! v = Some xs → load v i σ = at_ xs i.
Proof. intros Hv. unfold load. by rewrite Hv. Qed.

Lemma swept_start res f n R0 (m0 : gmap vecref (list D)) lg0 :
  m0 !! res = Some R0 → swept res f n R0 m0 lg0 0 = State m0 lg0.
Proof.
  intros Hres. unfold swept. rewrite seqZ_nil by lia. simpl.
  rewrite app_nil_r. f_equal. by apply insert_id.
Qed.

Lemma swept_end res f n R0 (m0 : gmap vecref (list D)) lg0 :
  Z.of_nat (length R0) = n * n →
  swept res f n R0 m0 lg0 (n * n)
  = State (<[res := tabulate n f]> m0) (lg0 ++ (Store res <$> seqZ 0 (n * n))).
Proof.
  intros Hlen. unfold swept.
  rewrite take_ge by (rewrite length_tabulate; lia).
  rewrite drop_ge by lia. by rewrite app_nil_r.
Qed.

Lemma store_swept res f n R0 (m0 : gmap vecref (list D)) lg0 i j :
  Z.of_nat (length R0) = n * n → 0 ≤ i < n → 0 ≤ j < n →
  store res (index n i j) (f i j) (swept res f n R0 m0 lg0 (index n i j))
  = Some (swept res f n R0 m0 lg0 (index n i j + 1)).
Proof.
  intros Hlen Hi Hj. pose proof (index_bound n i j Hi Hj) as Hp.
  unfold store, swept. simpl. rewrite lookup_insert_eq. simpl.
  rewrite decide_True; last first.
  { rewrite length_app, length_take, length_drop, length_tabulate. lia. }
  do 2 f_equal.
  - rewrite insert_insert_eq. f_equal.
    replace (Z.to_nat (index n i j + 1)) with (Datatypes.S (Z.to_nat (index n i j))) by lia.
    apply insert_take_drop; [|lia].
    rewrite lookup_tabulate by lia. by rewrite index_div, index_mod.
  - rewrite seqZ_app, fmap_app, app_assoc by lia. by f_equal.
Qed.

(** A row-major double loop that stores [compute i j] into cell
    [(i, j)] of [res] fills [res] with the table of those values. *)
Lemma sweep_spec (compute : Z → Z → state → option D) f res n
    (m0 : gmap vecref (list D)) lg0 R0 :
  0 ≤ n → m0 !! res = Some R0 → Z.of_nat (length R0) = n * n →
  (∀ i j, 0 ≤ i < n → 0 ≤ j < n →
     compute i j (swept res f n R0 m0 lg0 (index n i j)) = Some (f i j)) →
  for_int n (λ i,
    for_int n (λ j σ, x ← compute i j σ; store res (index n i j) x σ))
    (State m0 lg0)
  = Some (State (<[res := tabulate n f]> m0)
                (lg0 ++ (Store res <$> seqZ 0 (n * n)))).
Proof.
  intros Hn Hres Hlen Hcomp.
  rewrite <- (swept_end res f n R0) by done.
  rewrite <- (swept_start res f n R0 m0 lg0) at 1 by done.
  set (sw := swept res f n R0 m0 lg0).
  edestruct (for_int_inv (λ i σ, σ = sw (i * n)) n) as (t & -> & ->);
    [done|reflexivity| |reflexivity].
  intros i σ Hi ->.
  edestruct (for_int_inv (λ j σ, σ = sw (index n i j)) n
    (λ j σ, x ← compute i j σ; store res (index n i j) x σ) (sw (i * n)))
    as (t & Ht & ->); [done|unfold index; f_equal; lia| |].
  - intros j σ Hj ->. exists (sw (index n i j + 1)). split.
    + unfold sw. cbv beta. rewrite Hcomp by done. simpl. by apply store_swept.
    + f_equal. unfold index. lia.
  - eexists. split; [exact Ht|]. f_equal. unfold index. lia.
Qed.

(** *** The inner loops *)

Lemma for_int_fold {S} (g : S → Z → S) n (body : Z → S → option S) s :
  0 ≤ n → (∀ k t, 0 ≤ k < n → body k t = Some (g t k)) →
  for_int n body s = Some (fold_left g (seqZ 0 n) s).
Proof.
  intros Hn Hbody.
  edestruct (for_int_inv (λ k t, t = fold_left g (seqZ 0 k) s) n body s)
    as (t & Ht & ->); [done| by rewrite seqZ_nil | |exact Ht].
  intros k t Hk ->. exists (g (fold_left g (seqZ 0 k) s) k).
  split; [by apply Hbody|].
  rewrite seqZ_app, fold_left_app by lia.
  by rewrite (seqZ_cons (0 + k) 1), (seqZ_nil _ (Z.pred 1)) by lia.
Qed.

Lemma dotNaive_spec mul1 mul2 n i j (σ : state) A B :
  vecs σ !! mul1 = Some A → vecs σ !! mul2 = Some B →
  Z.of_nat (length A) = n * n → Z.of_nat (length B) = n * n →
  0 ≤ i < n → 0 ≤ j < n →
  dotNaive dzero dadd dmul mul1 mul2 n i j σ = Some (dot A B n i j).
Proof.
  intros HA HB HlA HlB Hi Hj. rewrite dot_eq. unfold dotNaive.
  apply for_int_fold; [lia|]. intros k sum Hk.
  rewrite (load_vec mul1 _ _ A), (load_vec mul2 _ _ B) by done.
  pose proof (index_bound n i k Hi Hk). pose proof (index_bound n k j Hk Hj).
  by rewrite !at_cell by lia.
Qed.

Lemma dotTransposed_spec mul1 mul2T n i j (σ : state) A T :
  vecs σ !! mul1 = Some A → vecs σ !! mul2T = Some T →
  Z.of_nat (length A) = n * n → Z.of_nat (length T) = n * n →
  0 ≤ i < n → 0 ≤ j < n →
  dotTransposed dzero dadd dmul mul1 mul2T n i j σ = Some (dot_rows dzero dadd dmul A T n i j).
Proof.
  intros HA HT HlA HlT Hi Hj. unfold dotTransposed, dot_rows, ordered_sum.
  apply for_int_fold; [lia|]. intros k sum Hk.
  rewrite (load_vec mul1 _ _ A), (load_vec mul2T _ _ T) by done.
  pose proof (index_bound n i k Hi Hk). pose proof (index_bound n j k Hj Hk).
  by rewrite !at_cell by lia.
Qed.

Lemma fold_left_ext_in {S} (g h : S → Z → S) (l : list Z) s :
  (∀ t k, k ∈ l → g t k = h t k) → fold_left g l s = fold_left h l s.
Proof.
  revert s. induction l as [|k l IH]; intros s Hgh; simpl; [done|].
  rewrite Hgh by left. apply IH. intros t k' Hk'. apply Hgh. by right.
Qed.

(** Reading row [j] of the transpose is reading column [j] of the
    matrix: the two inner loops add the same terms in the same order. *)
Lemma dot_rows_transposed A B n i j :
  Z.of_nat (length B) = n * n → 0 ≤ j < n →
  dot_rows dzero dadd dmul A (transposed B n) n i j = dot A B n i j.
Proof.
  intros HlB Hj. rewrite dot_eq. unfold dot_rows, ordered_sum.
  apply fold_left_ext_in. intros sum k Hk. apply elem_of_seqZ in Hk.
  do 2 f_equal. rewrite (cell_eq (transposed B n)).
  by rewrite at_transposed by lia.
Qed.

(** *** The three routines in closed form *)

Lemma buildTranspose_spec mul mulT n (σ : state) M T0 :
  0 ≤ n → mul ≠ mulT →
  vecs σ !! mul = Some M → vecs σ !! mulT = Some T0 →
  Z.of_nat (length M) = n * n → Z.of_nat (length T0) = n * n →
  buildTranspose mul mulT n σ
  = Some (State (<[mulT := transposed M n]> (vecs σ))
                (log σ ++ Call BuildTranspose :: (Store mulT <$> seqZ 0 (n * n)))).
Proof.
  intros Hn Hne HM HT HlM HlT. unfold buildTranspose, enter.
  rewrite (sweep_spec (λ i j, load mul (index n j i))
             (λ i j, cell M (index n j i)) mulT n _ _ T0) by
    (try done; intros i j Hi Hj; pose proof (index_bound n j i Hj Hi);
     erewrite load_vec by (simpl; rewrite lookup_insert_ne by done; exact HM);
     apply at_cell; lia).
  by rewrite <- app_assoc.
Qed.

Lemma multiplyNaive_spec mul1 mul2 res n (σ : state) A B R0 :
  0 ≤ n → res ≠ mul1 → res ≠ mul2 →
  vecs σ !! mul1 = Some A → vecs σ !! mul2 = Some B → vecs σ !! res = Some R0 →
  Z.of_nat (length A) = n * n → Z.of_nat (length B) = n * n →
  Z.of_nat (length R0) = n * n →
  multiplyNaive dzero dadd dmul mul1 mul2 res n σ
  = Some (State (<[res := product A B n]> (vecs σ))
                (log σ ++ Call MultiplyNaive :: (Store res <$> seqZ 0 (n * n)))).
Proof.
  intros Hn Hn1 Hn2 HA HB HR HlA HlB HlR. unfold multiplyNaive, enter.
  rewrite (sweep_spec (dotNaive dzero dadd dmul mul1 mul2 n)
             (dot A B n) res n _ _ R0) by
    (try done; intros i j Hi Hj;
     apply dotNaive_spec; try done; simpl; by rewrite lookup_insert_ne).
  by rewrite <- app_assoc.
Qed.

Lemma multiplyWithTranspose_spec mul1 mul2T res n (σ : state) A T R0 :
  0 ≤ n → res ≠ mul1 → res ≠ mul2T →
  vecs σ !! mul1 = Some A → vecs σ !! mul2T = Some T → vecs σ !! res = Some R0 →
  Z.of_nat (length A) = n * n → Z.of_nat (length T) = n * n →
  Z.of_nat (length R0) = n * n →
  multiplyWithTranspose dzero dadd dmul mul1 mul2T res n σ
  = Some (State (<[res := tabulate n (dot_rows dzero dadd dmul A T n)]> (vecs σ))
                (log σ ++ Call MultiplyWithTranspose :: (Store res <$> seqZ 0 (n * n)))).
Proof.
  intros Hn Hn1 Hn2 HA HT HR HlA HlT HlR. unfold multiplyWithTranspose, enter.
  rewrite (sweep_spec (dotTransposed dzero dadd dmul mul1 mul2T n)
             (dot_rows dzero dadd dmul A T n) res n _ _ R0) by
    (try done; intros i j Hi Hj;
     apply dotTransposed_spec; try done; simpl; by rewrite lookup_insert_ne).
  by rewrite <- app_assoc.
Qed.

Lemma checksum_spec res n (σ : state) R :
  vecs σ !! res = Some R → Z.of_nat (length R) = n * n →
  checksum dzero dadd res n σ = Some (total R).
Proof.
  intros HR Hlen. unfold checksum.
  edestruct (for_int_inv
    (λ k c, c = fold_left dadd (take (Z.to_nat k) R) dzero) (n * n)
    (λ i c, x ← load res i σ; Some (dadd c x)) dzero)
    as (c & Hc & ->); [lia|done| |].
  - intros k c Hk ->. rewrite (load_vec _ _ _ R), at_lookup by (done || lia).
    destruct (lookup_lt_is_Some_2 R (Z.to_nat k)) as [x Hx]; [lia|].
    rewrite Hx. simpl. eexists. split; [done|].
    replace (Z.to_nat (k + 1)) with (Datatypes.S (Z.to_nat k)) by lia.
    by rewrite (take_S_r _ _ _ Hx), fold_left_app.
  - rewrite Hc. by rewrite take_ge by lia.
Qed.

End KernelFacts.

(** ** The transposer and the two kernels *)

Lemma div_mod_range n p :
  0 < n → 0 ≤ p < n * n → 0 ≤ p `div` n < n ∧ 0 ≤ p `mod` n < n.
Proof.
  intros Hn Hp. split.
  - split; [apply Z.div_pos; lia | apply Z.div_lt_upper_bound; lia].
  - apply Z.mod_pos_bound; lia.
Qed.

Section Routines.
Context {D : Type}.
Variable dzero : D.
Variables dadd dmul : D → D → D.

Local Abbreviation state := (@state D).
Local Abbreviation cell := (cell dzero).
Local Abbreviation dot := (dot dzero dadd dmul).
Local Abbreviation product := (product dzero dadd dmul).
Local Abbreviation transposed := (transposed dzero).
Local Abbreviation total := (total dzero dadd).
Local Abbreviation multiplyNaive := (multiplyNaive dzero dadd dmul).
Local Abbreviation multiplyWithTranspose := (multiplyWithTranspose dzero dadd dmul).
Local Abbreviation checksum := (checksum dzero dadd).

Lemma tabulate_ext n (f g : Z → Z → D) :
  0 < n →
  (∀ i j, 0 ≤ i < n → 0 ≤ j < n → f i j = g i j) → tabulate n f = tabulate n g.
Proof.
  intros Hn Hfg. unfold tabulate. apply list_fmap_ext. intros k p Hp.
  apply lookup_seqZ in Hp as [-> Hk].
  destruct (div_mod_range n (0 + Z.of_nat k)) as [? ?]; [lia..|]. by apply Hfg.
Qed.

Lemma Forall_tabulate (P : D → Prop) n (f : Z → Z → D) :
  0 < n → (∀ i j, 0 ≤ i < n → 0 ≤ j < n → P (f i j)) → Forall P (tabulate n f).
Proof.
  intros Hn Hf. unfold tabulate. apply Forall_fmap, Forall_seqZ.
  intros p Hp. destruct (div_mod_range n p) as [? ?]; [lia..|]. by apply Hf.
Qed.

Lemma transposed_involutive (M : list D) n :
  0 < n → Z.of_nat (length M) = n * n → transposed (transposed M n) n = M.
Proof.
  intros Hn Hlen. apply list_eq. intros k.
  destruct (decide (Z.of_nat k < n * n)) as [Hk|Hk].
  - replace k with (Z.to_nat (Z.of_nat k)) by lia.
    destruct (div_mod_range n (Z.of_nat k)) as [Hd Hm]; [lia..|].
    rewrite (transposed_eq dzero (transposed M n)), lookup_tabulate by lia.
    rewrite (cell_eq dzero (transposed M n)), at_transposed by done. simpl.
    rewrite index_of_div_mod by lia.
    rewrite <- at_lookup by lia. symmetry. apply at_cell. lia.
  - rewrite !lookup_ge_None_2; [done|lia|].
    pose proof (length_transposed dzero (transposed M n) n ltac:(lia)). lia.
Qed.

(** C3 (buildTranspose): for an [int] [n > 0] whose square [n²], the
    number of elements, is an [int] too (so that [row * n + col] never
    overflows), an [n]×[n] matrix [M] behind [mul] and a distinct
    destination [mulT] of the same size, [buildTranspose] succeeds;
    afterwards [mulT[i*n + j] = mul[j*n + i]] for all [i], [j] in
    [[0, n)], the destination depends on [M] and [n] only, and [M] (as
    every vector other than [mulT]) is unchanged. *)
Theorem buildTranspose_correct mul mulT n (σ : state) M T0 :
  0 < n → n * n ≤ INT_MAX →
  mul ≠ mulT → holds n σ mul M → holds n σ mulT T0 →
  ∃ σ' T,
    buildTranspose mul mulT n σ = Some σ' ∧
    holds n σ' mulT T ∧
    T = transposed M n ∧
    (∀ i j, 0 ≤ i < n → 0 ≤ j < n →
       is_Some (at_ M (index n j i)) ∧
       at_ T (index n i j) = at_ M (index n j i)) ∧
    vecs σ' !! mul = Some M ∧
    (∀ v, v ≠ mulT → vecs σ' !! v = vecs σ !! v).
Proof.
  intros Hn _ Hne [HM HlM] [HT HlT].
  eexists _, (transposed M n). split; [by eapply buildTranspose_spec; try lia|].
  unfold holds. simpl. split; [|split; [done|split; [|split]]].
  - split; [by rewrite lookup_insert_eq|]. apply length_transposed. lia.
  - intros i j Hi Hj. pose proof (index_bound n j i Hj Hi).
    rewrite (at_cell dzero M) by lia. split; [done|]. by apply at_transposed.
  - by rewrite lookup_insert_ne.
  - intros v Hv. by rewrite lookup_insert_ne.
Qed.

(** C4 (transpose involution): for an [int] [n > 0] whose square is an
    [int] and an [n]×[n] matrix [M], transposing [M] into [t1] and then
    [t1] into [t2] leaves [t2] equal to [M], element for element. *)
Theorem buildTranspose_involution mul t1 t2 n (σ : state) M T1 T2 :
  0 < n → n * n ≤ INT_MAX → mul ≠ t1 → t1 ≠ t2 →
  holds n σ mul M → holds n σ t1 T1 → holds n σ t2 T2 →
  ∃ σ1 σ2,
    buildTranspose mul t1 n σ = Some σ1 ∧
    buildTranspose t1 t2 n σ1 = Some σ2 ∧
    vecs σ2 !! t2 = Some M.
Proof.
  intros Hn _ Hne1 Hne2 [HM HlM] [HT1 HlT1] [HT2 HlT2].
  eexists _, _. split; [by eapply buildTranspose_spec; try lia|].
  split.
  - apply (buildTranspose_spec dzero t1 t2 n _ (transposed M n) T2);
      try lia; try done; simpl.
    + by rewrite lookup_insert_eq.
    + by rewrite lookup_insert_ne.
    + apply length_transposed. lia.
  - simpl. rewrite lookup_insert_eq. f_equal. by apply transposed_involutive.
Qed.

(** C2 (multiplyNaive): for an [int] [n > 0] whose square is an [int]
    and inputs [A], [B] of [n²] elements, [multiplyNaive] succeeds and
    leaves in every cell
    [res[i*n + j]] the sum over [k = 0 .. n-1] of
    [A[i*n + k] * B[k*n + j]], accumulated from [0.0] in increasing [k];
    the writes it performs are one store per cell of [res], each cell
    exactly once. *)
Theorem multiplyNaive_cells mul1 mul2 res n (σ : state) A B R0 :
  0 < n → n * n ≤ INT_MAX → res ≠ mul1 → res ≠ mul2 →
  holds n σ mul1 A → holds n σ mul2 B → holds n σ res R0 →
  ∃ σ' R written,
    multiplyNaive mul1 mul2 res n σ = Some σ' ∧
    holds n σ' res R ∧
    (∀ i j, 0 ≤ i < n → 0 ≤ j < n →
       at_ R (index n i j)
       = Some (fold_left
                 (λ sum k, dadd sum (dmul (cell A (index n i k))
                                          (cell B (index n k j))))
                 (seqZ 0 n) dzero)) ∧
    log σ' = log σ ++ Call MultiplyNaive :: written ∧
    NoDup written ∧
    (∀ e, e ∈ written ↔ ∃ i j, 0 ≤ i < n ∧ 0 ≤ j < n ∧ e = Store res (index n i j)).
Proof.
  intros Hn _ Hn1 Hn2 [HA HlA] [HB HlB] [HR HlR].
  eexists _, (product A B n), (Store res <$> seqZ 0 (n * n)).
  split; [by eapply multiplyNaive_spec; try lia|]. unfold holds. simpl.
  split; [|split; [|split; [done|split]]].
  - split; [by rewrite lookup_insert_eq|]. apply length_product. lia.
  - intros i j Hi Hj. by rewrite at_product.
  - apply NoDup_fmap_2; [|apply NoDup_seqZ]. by intros p q [= ->].
  - intros e. rewrite list_elem_of_fmap. setoid_rewrite elem_of_seqZ. split.
    + intros (p & -> & Hp). destruct (div_mod_range n p) as [? ?]; [lia..|].
      exists (p `div` n), (p `mod` n). by rewrite index_of_div_mod.
    + intros (i & j & Hi & Hj & ->). exists (index n i j).
      pose proof (index_bound n i j Hi Hj). split; [done|lia].
Qed.

(** Transposing [B] and running the transposed kernel on the result
    computes the product of [A] and [B], cell for cell. *)
Lemma transposed_route_spec a b bt rb n (σ : state) A B T0 RB :
  0 < n → bt ≠ a → bt ≠ b → rb ≠ a → rb ≠ bt →
  holds n σ a A → holds n σ b B → holds n σ bt T0 → holds n σ rb RB →
  buildTranspose b bt n σ ≫= multiplyWithTranspose a bt rb n
  = Some (State (<[rb := product A B n]> (<[bt := transposed B n]> (vecs σ)))
                ((log σ ++ Call BuildTranspose :: (Store bt <$> seqZ 0 (n * n)))
                 ++ Call MultiplyWithTranspose :: (Store rb <$> seqZ 0 (n * n)))).
Proof.
  intros Hn ? ? ? ? [HA HlA] [HB HlB] [HT HlT] [HRB HlRB].
  rewrite (buildTranspose_spec dzero b bt n σ B T0) by (done || lia). simpl.
  rewrite (multiplyWithTranspose_spec dzero dadd dmul a bt rb n _ A
             (transposed B n) RB); try lia; try done; simpl.
  - do 3 f_equal. apply tabulate_ext; [done|].
    intros i j Hi Hj. by apply dot_rows_transposed.
  - by rewrite lookup_insert_ne.
  - by rewrite lookup_insert_eq.
  - by rewrite lookup_insert_ne.
  - apply length_transposed. lia.
Qed.

(** C1 (the two kernels agree): for an [int] [n > 0] whose square is an
    [int] and [n]×[n] matrices [A] and [B], [multiplyNaive(A, B)] and
    [multiplyWithTranspose(A, buildTranspose(B))] both succeed and leave
    the very same result vector, whatever the element arithmetic is,
    rounding included; the checksum loops over the two results return
    the same value. *)
Theorem kernels_agree a b bt ra rb n (σ : state) A B T0 RA RB :
  0 < n → n * n ≤ INT_MAX →
  ra ≠ a → ra ≠ b → bt ≠ a → bt ≠ b → rb ≠ a → rb ≠ bt →
  holds n σ a A → holds n σ b B → holds n σ bt T0 →
  holds n σ ra RA → holds n σ rb RB →
  ∃ σ1 σ2 σ3 R c,
    multiplyNaive a b ra n σ = Some σ1 ∧
    buildTranspose b bt n σ = Some σ2 ∧
    multiplyWithTranspose a bt rb n σ2 = Some σ3 ∧
    holds n σ1 ra R ∧ holds n σ3 rb R ∧
    checksum ra n σ1 = Some c ∧ checksum rb n σ3 = Some c.
Proof.
  intros Hn _ ? ? ? ? ? ? HA HB HT HRA HRB.
  assert (Z.of_nat (length (product A B n)) = n * n) as HlP
    by (apply length_product; lia).
  pose proof (transposed_route_spec a b bt rb n σ A B T0 RB) as Hroute.
  destruct HA as [HA HlA], HB as [HB HlB], HT as [HT HlT],
           HRA as [HRA HlRA], HRB as [HRB HlRB].
  rewrite (buildTranspose_spec dzero b bt n σ B T0) in Hroute by (done || lia).
  eexists _, _, _, (product A B n), (total (product A B n)).
  split; [by eapply multiplyNaive_spec; try lia|].
  split; [by eapply (buildTranspose_spec dzero b bt); try lia|].
  split; [by apply Hroute|].
  unfold holds. simpl.
  split; [split; [by rewrite lookup_insert_eq | done]|].
  split; [split; [by rewrite lookup_insert_eq | done]|].
  split; apply checksum_spec; simpl; by rewrite ?lookup_insert_eq.
Qed.

End Routines.

(** ** Memory safety

    Nothing here depends on which references are distinct: a store
    never changes the length of a vector, so every vector that has
    [n * n] elements at the start has them throughout. *)

Section Safety.
Context {D : Type}.
Variable dzero : D.
Variables dadd dmul : D → D → D.

Local Abbreviation state := (@state D).

Lemma load_is_Some n (σ : state) v i :
  sized n σ v → 0 ≤ i < n * n → is_Some (load v i σ).
Proof.
  intros (xs & Hv & Hlen) Hi. rewrite (load_vec v i σ xs Hv).
  apply at_is_Some. lia.
Qed.

Lemma store_is_Some n (σ : state) v i x :
  sized n σ v → 0 ≤ i < n * n → is_Some (store v i x σ).
Proof.
  intros (xs & Hv & Hlen) Hi. unfold store. rewrite Hv. simpl.
  rewrite decide_True by lia. done.
Qed.

Lemma store_sized n (σ σ' : state) v i x w :
  store v i x σ = Some σ' → sized n σ w → sized n σ' w.
Proof.
  unfold store. destruct (vecs σ !! v) as [xs|] eqn:Hv; simpl; [|done].
  case_decide; [|done]. intros [= <-] (ys & Hw & Hlen). unfold sized, holds.
  simpl. destruct (decide (v = w)) as [->|Hne].
  - rewrite lookup_insert_eq. eexists. split; [done|].
    rewrite length_insert. congruence.
  - rewrite lookup_insert_ne by done. by exists ys.
Qed.

Lemma sweep_safe (compute : Z → Z → state → option D) res n (σ0 : state) :
  0 ≤ n → sized n σ0 res →
  (∀ i j σ, 0 ≤ i < n → 0 ≤ j < n →
     (∀ v, sized n σ0 v → sized n σ v) → is_Some (compute i j σ)) →
  ∃ σ', for_int n (λ i,
          for_int n (λ j σ, x ← compute i j σ; store res (index n i j) x σ))
          σ0 = Some σ'
        ∧ ∀ v, sized n σ0 v → sized n σ' v.
Proof.
  intros Hn Hres Hcomp.
  apply (for_int_inv (λ _ σ, ∀ v, sized n σ0 v → sized n σ v)); [done..|].
  intros i σ Hi Hσ.
  apply (for_int_inv (λ _ σ, ∀ v, sized n σ0 v → sized n σ v)); [done..|].
  intros j σj Hj Hσj.
  destruct (Hcomp i j σj Hi Hj Hσj) as [x ->]. simpl.
  destruct (store_is_Some n σj res (index n i j) x) as [σ' Hst];
    [by apply Hσj | by apply index_bound |].
  exists σ'. split; [done|]. intros v Hv. eapply store_sized; eauto.
Qed.

Lemma inner_safe (v1 v2 : vecref) (ix1 ix2 : Z → Z) n (σ : state) :
  sized n σ v1 → sized n σ v2 →
  (∀ k, 0 ≤ k < n → 0 ≤ ix1 k < n * n ∧ 0 ≤ ix2 k < n * n) →
  is_Some (for_int n (λ k sum,
             a ← load v1 (ix1 k) σ;
             b ← load v2 (ix2 k) σ;
             Some (dadd sum (dmul a b))) dzero).
Proof.
  intros H1 H2 Hix. destruct (decide (0 ≤ n)) as [Hn|Hn];
    [|by rewrite for_int_nonpos by lia].
  edestruct (for_int_inv (λ _ (_ : D), True) n) as (t & -> & _); [done..| |done].
  intros k sum Hk _. destruct (Hix k Hk) as [? ?].
  destruct (load_is_Some n σ v1 (ix1 k)) as [a ->]; [done..|].
  destruct (load_is_Some n σ v2 (ix2 k)) as [b ->]; [done..|].
  simpl. eauto.
Qed.

(** C10 (all accesses in bounds): for an [int] [n > 0] whose square is
    an [int] and [0 ≤ row, col < n], the product [row * n] and the index
    [row * n + col] are computed without overflow and the index lies in
    [[0, n²)]; given vectors of [n²] elements none of [buildTranspose],
    [multiplyNaive], [multiplyWithTranspose] and the checksum loop reads
    or writes outside a vector: each returns a result. *)
Theorem accesses_in_bounds mul1 mul2 mul2T res n (σ : state) :
  0 < n → n * n ≤ INT_MAX →
  sized n σ mul1 → sized n σ mul2 → sized n σ mul2T → sized n σ res →
  (∀ row col, 0 ≤ row < n → 0 ≤ col < n →
     0 ≤ row * n ≤ INT_MAX ∧ 0 ≤ index n row col < n * n ∧
     index n row col ≤ INT_MAX) ∧
  is_Some (buildTranspose mul2 mul2T n σ) ∧
  is_Some (multiplyNaive dzero dadd dmul mul1 mul2 res n σ) ∧
  is_Some (multiplyWithTranspose dzero dadd dmul mul1 mul2T res n σ) ∧
  is_Some (checksum dzero dadd res n σ).
Proof.
  intros Hn Hsq H1 H2 HT HR.
  split.
  { intros row col Hrow Hcol.
    pose proof (index_bound n row col Hrow Hcol).
    pose proof (index_fits_int n row col Hsq Hrow Hcol). lia. }
  split; [|split; [|split]].
  - unfold buildTranspose.
    edestruct (sweep_safe (λ i j, load mul2 (index n j i)) mul2T n
                 (enter BuildTranspose σ)) as (σ' & -> & _); [lia|done| |done].
    intros i j σ' Hi Hj Hσ'. eapply load_is_Some; [by apply Hσ'|].
    by apply index_bound.
  - unfold multiplyNaive.
    edestruct (sweep_safe (dotNaive dzero dadd dmul mul1 mul2 n) res n
                 (enter MultiplyNaive σ)) as (σ' & -> & _); [lia|done| |done].
    intros i j σ' Hi Hj Hσ'. apply (inner_safe mul1 mul2 (index n i) (λ k, index n k j));
      [by apply Hσ'..|].
    intros k Hk. split; by apply index_bound.
  - unfold multiplyWithTranspose.
    edestruct (sweep_safe (dotTransposed dzero dadd dmul mul1 mul2T n) res n
                 (enter MultiplyWithTranspose σ)) as (σ' & -> & _); [lia|done| |done].
    intros i j σ' Hi Hj Hσ'. apply (inner_safe mul1 mul2T (index n i) (index n j));
      [by apply Hσ'..|].
    intros k Hk. split; by apply index_bound.
  - unfold checksum.
    edestruct (for_int_inv (λ _ (_ : D), True) (n * n)
                 (λ i c, x ← load res i σ; Some (dadd c x)) dzero)
      as (t & -> & _); [lia|done| |done].
    intros i c Hi _. destruct (load_is_Some n σ res i) as [x ->]; [done..|].
    simpl. eauto.
Qed.

End Safety.

(** ** Mode selection *)

Lemma append_cons (a : ascii) (p q : string) :
  String a p +:+ q = String a (p +:+ q).
Proof. reflexivity. Qed.

Lemma append_nil (q : string) : "" +:+ q = q.
Proof. reflexivity. Qed.

Lemma prefix_true_iff (p s : string) :
  String.prefix p s = true ↔ ∃ post, s = p +:+ post.
Proof.
  revert s. induction p as [|a p IH]; intros s.
  - split; [intros _; by exists s | by destruct s].
  - destruct s as [|b s]; simpl; [split; [done | intros [? ?]; done]|].
    destruct (ascii_dec a b) as [->|Hne].
    + rewrite IH. split; intros [post H]; exists post;
        rewrite append_cons in *; congruence.
    + split; [done | intros [post H]; rewrite append_cons in H; congruence].
Qed.

Lemma find_at_contains (pat s : string) (pos : nat) :
  find_at pat s pos ≠ None ↔ contains s pat.
Proof.
  revert pos. induction s as [|a s IH]; intros pos; cbn [find_at].
  - destruct (String.prefix pat "") eqn:Hp.
    + split; [intros _ | by intros _ [=]]. apply prefix_true_iff in Hp as [post Hp].
      by exists ""%string, post.
    + split; [done|]. intros (pre & post & H). exfalso.
      destruct pre; [|by rewrite append_cons in H]. rewrite append_nil in H.
      assert (String.prefix pat "" = true) as Hp'; [|congruence].
      apply prefix_true_iff. by exists post.
  - destruct (String.prefix pat (String a s)) eqn:Hp.
    + split; [intros _ | by intros _ [=]]. apply prefix_true_iff in Hp as [post Hp].
      by exists ""%string, post.
    + rewrite IH. split.
      * intros (pre & post & ->). by exists (String a pre), post.
      * intros (pre & post & H). destruct pre as [|b pre].
        -- rewrite append_nil in H.
           assert (String.prefix pat (String a s) = true) as Hp'; [|congruence].
           apply prefix_true_iff. by exists post.
        -- rewrite append_cons in H. injection H as _ ->. by exists pre, post.
Qed.

Lemma find_npos_iff (s pat : string) : find s pat ≠ npos ↔ contains s pat.
Proof. apply find_at_contains. Qed.

Lemma fold_left_orb {A} (P : A → bool) (l : list A) (b : bool) :
  fold_left (λ mode x, mode || P x) l b = b || existsb P l.
Proof.
  revert b. induction l as [|x l IH]; intros b; simpl.
  - by rewrite orb_false_r.
  - by rewrite IH, orb_assoc.
Qed.

Lemma transposeMode_true_iff (args : list string) :
  transposeMode args = true ↔ ∃ s, s ∈ args ∧ contains s "transpose".
Proof.
  unfold transposeMode. rewrite fold_left_orb. simpl.
  rewrite existsb_exists. setoid_rewrite bool_decide_eq_true.
  setoid_rewrite find_npos_iff. by setoid_rewrite list_elem_of_In.
Qed.

Lemma transposeMode_false_iff (args : list string) :
  transposeMode args = false ↔ ∀ s, s ∈ args → ¬ contains s "transpose".
Proof.
  rewrite <- not_true_iff_false, transposeMode_true_iff. split.
  - intros Hnone s Hs Hc. apply Hnone. by exists s.
  - intros Hall (s & Hs & Hc). by apply (Hall s).
Qed.

(** ** The harness *)

Section Harness.
Context {D rng : Type}.
Variable dzero : D.
Variables dadd dmul : D → D → D.
Variable mt19937 : Z → rng.
Variable dist : rng → D * rng.
Variable bits : D → Z.

Local Abbreviation state := (@state D).
Local Abbreviation draws := (draws dist).
Local Abbreviation input1 := (input1 mt19937 dist).
Local Abbreviation input2 := (input2 mt19937 dist).
Local Abbreviation product := (product dzero dadd dmul).
Local Abbreviation total := (total dzero dadd).
Local Abbreviation main_n := (main_n dzero dadd dmul mt19937 dist bits).

Lemma draws_succ k g :
  draws (Datatypes.S k) g
  = ((draws k g).1 ++ [(dist (draws k g).2).1], (dist (draws k g).2).2).
Proof.
  revert g. induction k as [|k IH]; intros g.
  - simpl. by destruct (dist g).
  - change (draws (Datatypes.S (Datatypes.S k)) g)
      with (let '(x, g') := dist g in
            let '(xs, g'') := draws (Datatypes.S k) g' in (x :: xs, g'')).
    destruct (dist g) as [x g'] eqn:Hg. rewrite IH.
    simpl. rewrite Hg. by destruct (draws k g').
Qed.

Lemma length_draws k g : length (draws k g).1 = k.
Proof.
  revert g. induction k as [|k IH]; intros g; simpl; [done|].
  destruct (dist g) as [x g']. specialize (IH g').
  destruct (draws k g'). simpl in *. by rewrite IH.
Qed.

(** Filling a vector of [n * n] elements stores the next [n * n] draws
    in it, in order, and leaves the generator after them. *)
Lemma fill_spec v n (σ : state) g R0 :
  holds n σ v R0 →
  fill dist v n (σ, g)
  = Some (State (<[v := (draws (Z.to_nat (n * n)) g).1]> (vecs σ))
                (log σ ++ (Store v <$> seqZ 0 (n * n))),
          (draws (Z.to_nat (n * n)) g).2).
Proof.
  intros [Hv Hlen]. unfold fill.
  edestruct (for_int_inv
    (λ k (σg : state * rng),
       σg = (State (<[v := (draws (Z.to_nat k) g).1 ++ drop (Z.to_nat k) R0]> (vecs σ))
                   (log σ ++ (Store v <$> seqZ 0 k)),
             (draws (Z.to_nat k) g).2))
    (n * n)
    (λ i (σg : state * rng),
       let '(x, g') := dist σg.2 in
       σ' ← store v i x σg.1; Some (σ', g'))
    (σ, g)) as (t & Ht & ->); [lia| | |].
  - rewrite seqZ_nil by lia. simpl. rewrite app_nil_r, insert_id by done.
    by destruct σ.
  - intros k σg Hk ->. simpl.
    replace (Z.to_nat (k + 1)) with (Datatypes.S (Z.to_nat k)) by lia.
    rewrite draws_succ. destruct (dist (draws (Z.to_nat k) g).2) as [x g'].
    unfold store. simpl. rewrite lookup_insert_eq. simpl.
    rewrite decide_True by (rewrite length_app, length_draws, length_drop; lia).
    eexists. split; [done|]. f_equal. f_equal.
    + rewrite insert_insert_eq. f_equal.
      destruct (lookup_lt_is_Some_2 R0 (Z.to_nat k)) as [y Hy]; [lia|].
      rewrite insert_app_r_alt by (rewrite length_draws; lia).
      rewrite length_draws, Nat.sub_diag, (drop_S R0 y _ Hy).
      simpl. by rewrite <- app_assoc.
    + rewrite seqZ_app, fmap_app, app_assoc by lia. by f_equal.
  - rewrite Ht. do 3 f_equal. rewrite drop_ge by lia. by rewrite app_nil_r.
Qed.

Lemma length_zeros n : Z.of_nat (length (zeros dzero n)) = n * n.
Proof. unfold zeros. rewrite length_replicate. nia. Qed.

Lemma input1_eq s n :
  input1 s n = (draws (Z.to_nat (n * n)) (mt19937 s)).1.
Proof. reflexivity. Qed.

Lemma input2_eq s n :
  input2 s n
  = (draws (Z.to_nat (n * n)) (draws (Z.to_nat (n * n)) (mt19937 s)).2).1.
Proof. reflexivity. Qed.

Lemma length_input1 s n : Z.of_nat (length (input1 s n)) = n * n.
Proof. rewrite input1_eq, length_draws. nia. Qed.

Lemma length_input2 s n : Z.of_nat (length (input2 s n)) = n * n.
Proof. rewrite input2_eq, length_draws. nia. Qed.

(** The vectors after generation from seed [s]. *)
Lemma generate_spec s n :
  ∃ g, generate dzero mt19937 dist s n
       = Some (State (<[mul2 := input2 s n]> (<[mul1 := input1 s n]>
                        (vecs (alloc dzero n))))
                     ((Store mul1 <$> seqZ 0 (n * n))
                      ++ (Store mul2 <$> seqZ 0 (n * n))), g).
Proof.
  unfold generate.
  rewrite (fill_spec mul1 n _ _ (zeros dzero n)) by (split; [done|apply length_zeros]).
  simpl. erewrite (fill_spec mul2 n _ _ (zeros dzero n));
    [|split; [done|apply length_zeros]].
  simpl. eauto.
Qed.

Lemma main_n_eq n e :
  main_n n e
  = (σg ← generate dzero mt19937 dist seed n;
     if negb (transposeMode (argv e)) then
       σ ← multiplyNaive dzero dadd dmul mul1 mul2 resA n σg.1;
       checksumA ← checksum dzero dadd resA n σ;
       Some (Outcome σ (report "naive" (elapsed_ms e) (bits checksumA)) 0)
     else
       σ ← buildTranspose mul2 mul2T n σg.1;
       σ ← multiplyWithTranspose dzero dadd dmul mul1 mul2T resB n σ;
       checksumB ← checksum dzero dadd resB n σ;
       Some (Outcome σ (report "transposed" (elapsed_ms e) (bits checksumB)) 0)).
Proof. reflexivity. Qed.

Lemma calls_app l1 l2 : calls (l1 ++ l2) = calls l1 ++ calls l2.
Proof. apply omap_app. Qed.

Lemma calls_stores v (l : list Z) : calls (Store v <$> l) = [].
Proof. by induction l. Qed.

(** What a run does, for any environment: it generates the inputs from
    the fixed seed, runs the kernel the mode selects and prints the
    label of that kernel and the checksum of the product. *)
Lemma main_n_run n e :
  0 < n →
  let A := input1 seed n in
  let B := input2 seed n in
  let mode := transposeMode (argv e) in
  ∃ σ,
    main_n n e
    = Some (Outcome σ
              (report (if mode then "transposed" else "naive")
                      (elapsed_ms e) (bits (total (product A B n)))) 0) ∧
    vecs σ !! mul1 = Some A ∧ vecs σ !! mul2 = Some B ∧
    vecs σ !! (if mode then resB else resA) = Some (product A B n) ∧
    calls (log σ)
    = if mode then [BuildTranspose; MultiplyWithTranspose] else [MultiplyNaive].
Proof.
  intros Hn A B mode. rewrite main_n_eq. fold mode.
  destruct (generate_spec seed n) as [g ->]. simpl. fold A B.
  pose proof (length_input1 seed n) as HlA. pose proof (length_input2 seed n) as HlB.
  pose proof (length_zeros n) as HlZ. pose proof (length_product dzero dadd dmul A B n) as HlP.
  fold A in HlA. fold B in HlB.
  destruct mode; simpl.
  - pose proof (transposed_route_spec dzero dadd dmul mul1 mul2 mul2T resB n) as Hroute.
    match goal with |- context [buildTranspose _ _ _ ?σ0] =>
      specialize (Hroute σ0 A B (zeros dzero n) (zeros dzero n))
    end.
    destruct (buildTranspose mul2 mul2T n _) as [σ2|] eqn:Hbt;
      [|by discriminate Hroute]. simpl in *.
    rewrite Hroute by (done || by split). simpl.
    erewrite checksum_spec; [|by simpl; rewrite lookup_insert_eq|lia]. simpl.
    eexists. split; [done|]. simpl. split; [done|]. split; [done|].
    split; [done|].
    by rewrite !calls_app; simpl; rewrite !calls_stores.
  - erewrite multiplyNaive_spec; try done; try lia. simpl.
    erewrite checksum_spec; [|by simpl; rewrite lookup_insert_eq|lia]. simpl.
    eexists. split; [done|]. simpl. split; [done|]. split; [done|].
    split; [done|].
    by rewrite !calls_app; simpl; rewrite !calls_stores.
Qed.

(** The checksum a run prints does not depend on the mode: two runs
    differ in the label and the time they print at most. *)
Lemma checksum_mode_independent n e1 e2 :
  0 < n →
  ∃ out1 out2 label1 label2 c,
    main_n n e1 = Some out1 ∧ main_n n e2 = Some out2 ∧
    stdout out1 = report label1 (elapsed_ms e1) c ∧
    stdout out2 = report label2 (elapsed_ms e2) c.
Proof.
  intros Hn.
  destruct (main_n_run n e1 Hn) as (σ1 & H1 & _).
  destruct (main_n_run n e2 Hn) as (σ2 & H2 & _).
  by eexists _, _, _, _, _.
Qed.

(** C5 (deterministic generation): whatever the arguments, the
    entropy source and the clock are, a run leaves in [mul1] and [mul2]
    the first and the second [n²] draws of the generator seeded with
    the constant 89899898; any two runs, in the same mode or not, work
    on identical inputs. *)
Theorem generation_deterministic n e1 e2 :
  0 < n →
  ∃ out1 out2,
    main_n n e1 = Some out1 ∧ main_n n e2 = Some out2 ∧
    vecs (final out1) !! mul1 = Some (input1 89899898 n) ∧
    vecs (final out2) !! mul1 = Some (input1 89899898 n) ∧
    vecs (final out1) !! mul2 = Some (input2 89899898 n) ∧
    vecs (final out2) !! mul2 = Some (input2 89899898 n).
Proof.
  intros Hn.
  destruct (main_n_run n e1 Hn) as (σ1 & H1 & HA1 & HB1 & _).
  destruct (main_n_run n e2 Hn) as (σ2 & H2 & HA2 & HB2 & _).
  eexists _, _. split; [exact H1|]. split; [exact H2|]. by simpl.
Qed.

(** C7 (one kernel per run): a run enters exactly one multiplication
    kernel, and the arguments decide which.  When some element of [argv]
    contains ["transpose"] the run builds the transpose, enters
    [multiplyWithTranspose] and not [multiplyNaive], and labels its
    output [transposed]; when none does it enters [multiplyNaive] alone,
    builds no transpose, and labels its output [naive].  The mode is the
    one the scan of the arguments computes at startup. *)
Theorem one_kernel_per_run n e :
  0 < n →
  ∃ out,
    main_n n e = Some out ∧
    multiplications (log (final out))
    = [if transposeMode (argv e) then MultiplyWithTranspose else MultiplyNaive] ∧
    ((∀ s, s ∈ argv e → ¬ contains s "transpose") →
       calls (log (final out)) = [MultiplyNaive] ∧
       ∃ rest, stdout out = "naive ms: " +:+ rest) ∧
    ((∃ s, s ∈ argv e ∧ contains s "transpose") →
       calls (log (final out)) = [BuildTranspose; MultiplyWithTranspose] ∧
       multiplications (log (final out)) = [MultiplyWithTranspose] ∧
       ∃ rest, stdout out = "transposed ms: " +:+ rest).
Proof.
  intros Hn. destruct (main_n_run n e Hn) as (σ & Hrun & _ & _ & _ & Hcalls).
  eexists. split; [exact Hrun|]. simpl. unfold multiplications. rewrite Hcalls.
  split; [by destruct (transposeMode (argv e))|]. split.
  - intros Hnone. apply transposeMode_false_iff in Hnone. rewrite Hnone.
    split; [done|]. by eexists.
  - intros Hsome. apply transposeMode_true_iff in Hsome. rewrite Hsome.
    split; [done|]. split; [done|]. by eexists.
Qed.

(** C9 (the scan includes [argv[0]]): the mode is transposed exactly
    when some element of [argv] contains ["transpose"]; so a run whose
    only element of [argv] is a program path containing ["transpose"]
    builds the transpose and runs the transposed kernel. *)
Theorem mode_scans_all_argv n e :
  0 < n →
  (transposeMode (argv e) = true ↔ ∃ s, s ∈ argv e ∧ contains s "transpose") ∧
  (∀ path, argv e = [path] → contains path "transpose" →
     ∃ out,
       main_n n e = Some out ∧
       calls (log (final out)) = [BuildTranspose; MultiplyWithTranspose] ∧
       ∃ rest, stdout out = "transposed ms: " +:+ rest).
Proof.
  intros Hn. split; [apply transposeMode_true_iff|].
  intros path Hargv Hpath.
  destruct (main_n_run n e Hn) as (σ & Hrun & _ & _ & _ & Hcalls).
  assert (transposeMode (argv e) = true) as Hmode.
  { apply transposeMode_true_iff. exists path. split; [|done].
    rewrite Hargv. by left. }
  rewrite Hmode in Hrun, Hcalls.
  eexists. split; [exact Hrun|]. split; [done|]. by eexists.
Qed.

End Harness.

(** ** Multiplication by the identity matrix *)

Section Identity.
Context {D : Type}.
Variables dzero one : D.
Variables dadd dmul : D → D → D.

(** [entry] picks the elements the matrix [B] may hold, [null] the
    values [0 * x] may take for them. *)
Variables entry null : D → Prop.
Hypothesis mul_one_l : ∀ x, entry x → dmul one x = x.
Hypothesis mul_zero_l : ∀ x, entry x → null (dmul dzero x).
Hypothesis add_zero_null : ∀ z, null z → dadd dzero z = dzero.
Hypothesis add_zero_l : ∀ x, entry x → dadd dzero x = x.
Hypothesis add_null_r : ∀ x z, entry x → null z → dadd x z = x.

Local Abbreviation cell := (cell dzero).
Local Abbreviation identity := (identity dzero one).

Lemma identity_eq n :
  identity n = tabulate n (λ i j, if decide (i = j) then one else dzero).
Proof. reflexivity. Qed.

Lemma fold_null_from_zero (term : Z → D) (l : list Z) :
  (∀ k, k ∈ l → null (term k)) →
  fold_left (λ sum k, dadd sum (term k)) l dzero = dzero.
Proof.
  induction l as [|k l IH]; intros Hl; simpl; [done|].
  rewrite add_zero_null by (apply Hl; by left).
  apply IH. intros k' Hk'. apply Hl. by right.
Qed.

Lemma fold_null_from_entry (term : Z → D) (l : list Z) x :
  entry x → (∀ k, k ∈ l → null (term k)) →
  fold_left (λ sum k, dadd sum (term k)) l x = x.
Proof.
  intros Hx. induction l as [|k l IH]; intros Hl; simpl; [done|].
  rewrite add_null_r by (done || apply Hl; by left).
  apply IH. intros k' Hk'. apply Hl. by right.
Qed.

Lemma cell_identity n i k :
  0 ≤ i < n → 0 ≤ k < n →
  cell (identity n) (index n i k) = if decide (i = k) then one else dzero.
Proof.
  intros Hi Hk. by rewrite cell_eq, identity_eq, at_tabulate.
Qed.

Lemma entry_cell (B : list D) n k j :
  Forall entry B → Z.of_nat (length B) = n * n →
  0 ≤ k < n → 0 ≤ j < n → entry (cell B (index n k j)).
Proof. apply Forall_cell. Qed.

(** Row [i] of the identity picks entry [(i, j)] out of column [j]. *)
Lemma dot_identity (B : list D) n i j :
  Forall entry B → Z.of_nat (length B) = n * n →
  0 ≤ i < n → 0 ≤ j < n →
  dot dzero dadd dmul (identity n) B n i j = cell B (index n i j).
Proof.
  intros HB Hlen Hi Hj. unfold dot, ordered_sum.
  replace n with (i + (1 + (n - i - 1))) at 1 by lia.
  rewrite seqZ_app, (seqZ_app (0 + i) 1) by lia.
  rewrite !fold_left_app.
  rewrite fold_null_from_zero; last first.
  { intros k Hk. apply elem_of_seqZ in Hk.
    rewrite cell_identity, decide_False by lia.
    apply mul_zero_l, entry_cell; (done || lia). }
  rewrite (seqZ_cons (0 + i) 1), (seqZ_nil _ (Z.pred 1)) by lia. simpl.
  rewrite cell_identity, decide_True by lia.
  rewrite mul_one_l, add_zero_l by (apply entry_cell; done || lia).
  apply fold_null_from_entry; [by apply entry_cell|].
  intros k Hk. apply elem_of_seqZ in Hk.
  rewrite cell_identity, decide_False by lia.
  apply mul_zero_l, entry_cell; (done || lia).
Qed.

Lemma product_identity (B : list D) n :
  0 < n → Forall entry B → Z.of_nat (length B) = n * n →
  product dzero dadd dmul (identity n) B n = B.
Proof.
  intros Hn HB Hlen. apply list_eq. intros p.
  destruct (decide (Z.of_nat p < n * n)) as [Hp|Hp].
  - destruct (div_mod_range n (Z.of_nat p)) as [Hd Hm]; [lia..|].
    replace p with (Z.to_nat (Z.of_nat p)) at 1 by lia.
    unfold product. rewrite lookup_tabulate by lia.
    rewrite dot_identity, index_of_div_mod by done.
    rewrite <- at_cell, at_lookup by lia. by rewrite Nat2Z.id.
  - rewrite !lookup_ge_None_2; [done|lia|].
    pose proof (length_product dzero dadd dmul (identity n) B n). lia.
Qed.

End Identity.

(** ** Binary64 arithmetic with zero and one *)

Lemma b64_mul_one_finite s m e :
  bounded B64.prec B64.emax m e = true →
  B64.mul B64.one (S754_finite s m e) = S754_finite s m e.
Proof.
  intros Hb. unfold bounded, canonical_mantissa in Hb.
  apply andb_prop in Hb as [Hc He]. apply Z.eqb_eq in Hc.
  unfold B64.mul, B64.one, SFmul, binary_round_aux.
  change (xorb false s) with s.
  change (Pos.mul 4503599627370496 m) with
    (m~0~0~0~0~0~0~0~0~0~0~0~0~0~0~0~0~0~0~0~0~0~0~0~0~0~0
      ~0~0~0~0~0~0~0~0~0~0~0~0~0~0~0~0~0~0~0~0~0~0~0~0~0~0)%positive.
  unfold shr_fexp at 1. cbn [Zdigits2 digits2_pos].
  rewrite !Pos2Z.inj_succ.
  match goal with |- context [fexp B64.prec B64.emax ?a] =>
    replace a with (Z.pos (digits2_pos m) + e) by lia end.
  rewrite Hc. replace (e - (-52 + e)) with 52 by lia.
  cbn [shr shr_record_of_loc SpecFloat.iter_pos shr_1].
  replace (-52 + e + 52) with e by lia.
  cbn [shr_m loc_of_shr_record round_nearest_even orb].
  unfold shr_fexp. cbn [Zdigits2]. rewrite Hc, Z.sub_diag.
  cbn [shr shr_record_of_loc shr_m]. by rewrite He.
Qed.

Lemma b64_mul_one_l x : B64.plain x = true → B64.mul B64.one x = x.
Proof.
  destruct x as [[]| | |s m e]; try done. apply b64_mul_one_finite.
Qed.

Lemma b64_mul_zero_l x :
  B64.plain x = true → B64.is_zero (B64.mul B64.zero x) = true.
Proof. by destruct x as [[]| | |s m e]. Qed.

Lemma b64_add_zero_null z :
  B64.is_zero z = true → B64.add B64.zero z = B64.zero.
Proof. by destruct z as [[]| | |s m e]. Qed.

Lemma b64_add_zero_l x : B64.plain x = true → B64.add B64.zero x = x.
Proof. by destruct x as [[]| | |s m e]. Qed.

Lemma b64_add_null_r x z :
  B64.plain x = true → B64.is_zero z = true → B64.add x z = x.
Proof. by destruct x as [[]| | |s m e], z as [[]| | |s' m' e']. Qed.

Lemma b64_product_identity (B : list B64.double) n :
  0 < n → Forall (λ x, B64.plain x = true) B → Z.of_nat (length B) = n * n →
  product B64.zero B64.add B64.mul (identity B64.zero B64.one n) B n = B.
Proof.
  apply (product_identity B64.zero B64.one B64.add B64.mul
           (λ x, B64.plain x = true) (λ z, B64.is_zero z = true)).
  - apply b64_mul_one_l.
  - apply b64_mul_zero_l.
  - apply b64_add_zero_null.
  - apply b64_add_zero_l.
  - apply b64_add_null_r.
Qed.

(** C6, as amended (identity times [B]): for an [int] [n > 0] whose
    square is an [int], if [A] is the [n]×[n] identity and every entry of
    [B] is a finite double other than the negative zero, then [multiplyNaive(A, B)] and
    [multiplyWithTranspose(A, buildTranspose(B))] both leave [B] itself in
    their result vector, and the checksum of either result is the sum of
    the entries of [B] in storage order, hence has its bit pattern. *)
Theorem identity_product a b bt ra rb n (σ : @state B64.double) B T0 RA RB :
  0 < n → n * n ≤ INT_MAX →
  ra ≠ a → ra ≠ b → bt ≠ a → bt ≠ b → rb ≠ a → rb ≠ bt →
  holds n σ a (identity B64.zero B64.one n) → holds n σ b B →
  holds n σ bt T0 → holds n σ ra RA → holds n σ rb RB →
  Forall (λ x, B64.plain x = true) B →
  ∃ σ1 σ3,
    multiplyNaive B64.zero B64.add B64.mul a b ra n σ = Some σ1 ∧
    buildTranspose b bt n σ
      ≫= multiplyWithTranspose B64.zero B64.add B64.mul a bt rb n = Some σ3 ∧
    vecs σ1 !! ra = Some B ∧ vecs σ3 !! rb = Some B ∧
    checksum B64.zero B64.add ra n σ1 = Some (total B64.zero B64.add B) ∧
    checksum B64.zero B64.add rb n σ3 = Some (total B64.zero B64.add B) ∧
    B64.bits <$> checksum B64.zero B64.add ra n σ1
      = Some (B64.bits (total B64.zero B64.add B)) ∧
    B64.bits <$> checksum B64.zero B64.add rb n σ3
      = Some (B64.bits (total B64.zero B64.add B)).
Proof.
  intros Hn _ ? ? ? ? ? ? HA HB HT HRA HRB Hplain.
  pose proof (b64_product_identity B n Hn Hplain (proj2 HB)) as Hid.
  eexists _, _.
  destruct HA as [HA HlA], HB as [HB HlB], HRA as [HRA HlRA].
  split; [by apply (multiplyNaive_spec B64.zero B64.add B64.mul a b ra n σ
            (identity B64.zero B64.one n) B RA); try lia|].
  split; [by eapply transposed_route_spec|].
  rewrite Hid. simpl. rewrite !lookup_insert_eq.
  rewrite !(checksum_spec B64.zero B64.add _ n _ B)
    by (simpl; done || by rewrite lookup_insert_eq).
  done.
Qed.

(** C6 as stated fails: with the 2×2 identity and a [B] holding an
    infinity, the naive kernel returns a NaN where [B] holds 1.0
    ([0 * inf] is NaN, and NaN absorbs the rest of the sum). *)
Lemma identity_times_infinity :
  let B := [B64.inf; B64.one; B64.one; B64.one] in
  let σ := with_inputs B64.zero (identity B64.zero B64.one 2) B 2 in
  holds 2 σ mul1 (identity B64.zero B64.one 2) ∧ holds 2 σ mul2 B ∧
  ∃ σ' R,
    multiplyNaive B64.zero B64.add B64.mul mul1 mul2 resA 2 σ = Some σ' ∧
    vecs σ' !! resA = Some R ∧
    R = [B64.inf; B64.one; S754_nan; B64.one] ∧ R ≠ B.
Proof.
  split; [done|]. split; [done|].
  eexists _, _. split; [vm_compute; reflexivity|].
  split; [vm_compute; reflexivity|]. split; [reflexivity|discriminate].
Qed.

(** ** Binary64 rounding: an upper bound that is an integer survives

    The value of a double is counted in units of [2^-1074]
    ([B64.ulps]).  Rounding an exact non-negative result [v ≤ K < 2^53],
    [K] an integer, gives a finite double that is still at most [K]: the
    rounded mantissa exceeds the truncated one only when the result is
    inexact, and then the next multiple of the unit in the last place is
    at most [K], [K] being such a multiple. *)

Lemma pow2_pos a : 0 ≤ a → 0 < 2 ^ a.
Proof. intros. apply Z.pow_pos_nonneg; lia. Qed.

Lemma digits2_bounds (m : positive) :
  2 ^ (Z.pos (digits2_pos m) - 1) ≤ Z.pos m < 2 ^ Z.pos (digits2_pos m).
Proof.
  induction m as [m IH|m IH|]; simpl digits2_pos; [| |simpl; lia].
  - rewrite Pos2Z.inj_succ.
    replace (Z.succ (Z.pos (digits2_pos m)) - 1) with (Z.succ (Z.pos (digits2_pos m) - 1)) by lia.
    rewrite !Z.pow_succ_r by lia. lia.
  - rewrite Pos2Z.inj_succ.
    replace (Z.succ (Z.pos (digits2_pos m)) - 1) with (Z.succ (Z.pos (digits2_pos m) - 1)) by lia.
    rewrite !Z.pow_succ_r by lia. lia.
Qed.

Lemma iter_pos_nat {A} (f : A → A) (p : positive) (x : A) :
  SpecFloat.iter_pos f p x = Nat.iter (Pos.to_nat p) f x.
Proof.
  revert x. induction p as [p IH|p IH|]; intros x; simpl SpecFloat.iter_pos.
  - rewrite !IH. rewrite Pos2Nat.inj_xI.
    replace (Datatypes.S (2 * Pos.to_nat p))%nat with (Pos.to_nat p + (Pos.to_nat p + 1))%nat by lia.
    rewrite !Nat.iter_add. simpl. done.
  - rewrite !IH. rewrite Pos2Nat.inj_xO.
    replace (2 * Pos.to_nat p)%nat with (Pos.to_nat p + Pos.to_nat p)%nat by lia.
    by rewrite Nat.iter_add.
  - done.
Qed.

Lemma shr_1_spec mrs :
  0 ≤ shr_m mrs →
  shr_m (shr_1 mrs) = shr_m mrs `div` 2 ∧
  shr_r (shr_1 mrs) = Z.odd (shr_m mrs) ∧
  shr_s (shr_1 mrs) = shr_r mrs || shr_s mrs.
Proof.
  destruct mrs as [m r s]. simpl. intros Hm.
  rewrite <- Z.div2_div.
  by destruct m as [|[p|p|]|p]; try lia.
Qed.

Lemma iter_shr_1_spec (k : nat) mrs :
  0 ≤ shr_m mrs →
  let r := Nat.iter k shr_1 mrs in
  shr_m r = shr_m mrs `div` 2 ^ Z.of_nat k ∧
  (shr_r mrs = false → shr_s mrs = false →
   shr_m mrs `mod` 2 ^ Z.of_nat k = 0 → shr_r r = false ∧ shr_s r = false).
Proof.
  intros Hm. induction k as [|k IH].
  - simpl. split; [by rewrite Z.div_1_r | done].
  - cbn zeta in *. destruct IH as [IHm IHx].
    change (Nat.iter (Datatypes.S k) shr_1 mrs) with (shr_1 (Nat.iter k shr_1 mrs)).
    set (rk := Nat.iter k shr_1 mrs) in *.
    assert (0 ≤ shr_m rk) as Hrk.
    { rewrite IHm. apply Z.div_pos; [done | apply pow2_pos; lia]. }
    destruct (shr_1_spec rk Hrk) as (H1 & H2 & H3).
    rewrite Nat2Z.inj_succ, Z.pow_succ_r by lia.
    pose proof (pow2_pos (Z.of_nat k) ltac:(lia)) as Hpow.
    split.
    + rewrite H1, IHm, Z.div_div by lia. f_equal. lia.
    + intros Hr Hs Hmod.
      apply Z.mod_divide in Hmod; [|lia]. destruct Hmod as [q Hq].
      assert (shr_m mrs `mod` 2 ^ Z.of_nat k = 0) as Hmodk.
      { apply Z.mod_divide; [lia|]. exists (q * 2). lia. }
      destruct (IHx Hr Hs Hmodk) as [Hrr Hrs].
      rewrite H2, H3, Hrr, Hrs. split; [|done].
      rewrite IHm, Hq.
      replace (q * (2 * 2 ^ Z.of_nat k)) with ((q * 2) * 2 ^ Z.of_nat k) by lia.
      rewrite Z.div_mul by lia. rewrite Z.odd_mul. simpl. apply andb_false_r.
Qed.

Lemma fexp_eq x : fexp B64.prec B64.emax x = Z.max (x - 53) (-1074).
Proof. reflexivity. Qed.

Lemma pow2_lt_inv a b : 0 ≤ a → 2 ^ a < 2 ^ b → a < b.
Proof.
  intros Ha Hlt. destruct (decide (0 ≤ b)) as [Hb|Hb].
  - apply (Z.pow_lt_mono_r_iff 2); lia.
  - rewrite (Z.pow_neg_r 2 b) in Hlt by lia. pose proof (pow2_pos a Ha). lia.
Qed.

Lemma pow2_split a b : 0 ≤ a → 0 ≤ b → 2 ^ (a + b) = 2 ^ a * 2 ^ b.
Proof. intros. by apply Z.pow_add_r. Qed.

(** Comparing [a * 2^x] with [K] does not depend on the unit chosen. *)
Lemma rescale a x K S T :
  0 ≤ S → 0 ≤ T → 0 ≤ x + S → 0 ≤ x + T →
  a * 2 ^ (x + S) ≤ K * 2 ^ S → a * 2 ^ (x + T) ≤ K * 2 ^ T.
Proof.
  intros HS HT HxS HxT Hle.
  apply (Z.mul_le_mono_pos_r _ _ (2 ^ S)); [by apply pow2_pos|].
  apply (Z.mul_le_mono_nonneg_r _ _ (2 ^ T)) in Hle; [|pose proof (pow2_pos T HT); lia].
  rewrite <- !Z.mul_assoc, <- !pow2_split in * by lia.
  replace (x + T + S) with (x + S + T) by lia.
  by replace (T + S) with (S + T) by lia.
Qed.

Lemma mag_bound (m : positive) e K S :
  0 ≤ S → 0 ≤ e + S → Z.pos m * 2 ^ (e + S) ≤ K * 2 ^ S → K < 2 ^ 53 →
  Z.pos (digits2_pos m) + e ≤ 53.
Proof.
  intros HS HeS Hle HK. pose proof (digits2_bounds m) as [Hlo _].
  pose proof (pow2_pos S HS). pose proof (pow2_pos (e + S) HeS).
  assert (2 ^ (Z.pos (digits2_pos m) - 1 + (e + S)) < 2 ^ (53 + S)) as Hlt.
  { rewrite (pow2_split 53 S), (pow2_split (Z.pos (digits2_pos m) - 1) (e + S)) by lia.
    apply Z.le_lt_trans with (K * 2 ^ S);
      [|apply Z.mul_lt_mono_pos_r; lia].
    apply Z.le_trans with (Z.pos m * 2 ^ (e + S)); [|done].
    apply Z.mul_le_mono_nonneg_r; lia. }
  apply pow2_lt_inv in Hlt; lia.
Qed.

Lemma shr_exact_spec m e d :
  0 ≤ m →
  ∃ mrs, shr (shr_record_of_loc m loc_Exact) e d = (mrs, e + Z.max 0 d) ∧
         shr_m mrs = m `div` 2 ^ Z.max 0 d ∧
         (m `mod` 2 ^ Z.max 0 d = 0 → loc_of_shr_record mrs = loc_Exact).
Proof.
  intros Hm. destruct d as [|p|p].
  - eexists. simpl. split; [by rewrite Z.add_0_r|]. split; [by rewrite Z.div_1_r|done].
  - unfold shr. rewrite iter_pos_nat.
    destruct (iter_shr_1_spec (Pos.to_nat p) (shr_record_of_loc m loc_Exact) Hm)
      as [Hdiv Hex].
    rewrite positive_nat_Z in *. replace (Z.max 0 (Z.pos p)) with (Z.pos p) by lia.
    eexists. split; [done|]. split; [exact Hdiv|].
    intros Hmod. destruct (Hex eq_refl eq_refl Hmod) as [Hr Hs].
    destruct (Nat.iter _ _ _) as [m' r' s']. simpl in *. by subst.
  - eexists. simpl. split; [by rewrite Z.add_0_r|]. split; [by rewrite Z.div_1_r|done].
Qed.

Lemma round_nearest_even_bounds m l :
  m ≤ round_nearest_even m l ≤ m + 1.
Proof. destruct l as [|[]]; simpl; try lia. destruct (Z.even m); lia. Qed.

Lemma first_round_upper (mx : positive) ex K S :
  0 ≤ S → 0 ≤ ex + S → Z.pos mx * 2 ^ (ex + S) ≤ K * 2 ^ S → K < 2 ^ 53 →
  ∃ mrs e',
    shr_fexp B64.prec B64.emax (Z.pos mx) ex loc_Exact = (mrs, e') ∧
    let mr := round_nearest_even (shr_m mrs) (loc_of_shr_record mrs) in
    0 ≤ mr ∧ -1074 ≤ e' ∧ mr * 2 ^ (e' + 1074) ≤ K * 2 ^ 1074.
Proof.
  intros HS HeS Hle HK. unfold shr_fexp. cbn [Zdigits2]. rewrite fexp_eq.
  pose proof (mag_bound mx ex K S HS HeS Hle HK) as Hmag.
  set (dg := Z.pos (digits2_pos mx)) in *.
  set (d0 := Z.max (dg + ex - 53) (-1074) - ex).
  destruct (shr_exact_spec (Z.pos mx) ex d0) as (mrs & Heq & Hdiv & Hexact); [lia|].
  exists mrs, (ex + Z.max 0 d0). split; [done|]. cbn zeta.
  pose proof (round_nearest_even_bounds (shr_m mrs) (loc_of_shr_record mrs)) as Hrne.
  destruct (decide (d0 ≤ 0)) as [Hd|Hd].
  - replace (Z.max 0 d0) with 0 in * by lia.
    rewrite Hexact by apply Z.mod_1_r. simpl round_nearest_even.
    rewrite Hdiv, Z.div_1_r, Z.add_0_r.
    split; [lia|]. split; [lia|].
    apply (rescale _ _ _ S); lia.
  - replace (Z.max 0 d0) with d0 in * by lia.
    set (e' := ex + d0) in *.
    assert (-1074 ≤ e' ≤ 0) as He' by lia.
    pose proof (pow2_pos d0 ltac:(lia)) as Hpd.
    pose proof (pow2_pos (ex + S) HeS) as HpS.
    pose proof (pow2_pos (- e') ltac:(lia)) as Hpe.
    assert (Z.pos mx ≤ K * 2 ^ (- e') * 2 ^ d0) as Hmx.
    { rewrite <- Z.mul_assoc, <- pow2_split by lia.
      apply (Z.mul_le_mono_pos_r _ _ (2 ^ (ex + S))); [done|].
      rewrite <- Z.mul_assoc, <- pow2_split by lia.
      by replace (- e' + d0 + (ex + S)) with S by lia. }
    set (U := K * 2 ^ (- e')) in *.
    assert (0 ≤ shr_m mrs) as Hm1 by (rewrite Hdiv; apply Z.div_pos; lia).
    assert (round_nearest_even (shr_m mrs) (loc_of_shr_record mrs) ≤ U) as HU.
    { destruct (decide (Z.pos mx `mod` 2 ^ d0 = 0)) as [Hmod|Hmod].
      - rewrite Hexact by done. simpl. rewrite Hdiv.
        apply Z.div_le_upper_bound; lia.
      - assert (Z.pos mx ≠ U * 2 ^ d0) as Hne.
        { intros Heq'. apply Hmod. rewrite Heq'. apply Z.mod_mul. lia. }
        assert (shr_m mrs < U); [|lia].
        rewrite Hdiv. apply Z.div_lt_upper_bound; lia. }
    split; [lia|]. split; [lia|].
    apply Z.le_trans with (U * 2 ^ (e' + 1074)).
    + apply Z.mul_le_mono_nonneg_r; [|done].
      pose proof (pow2_pos (e' + 1074)). lia.
    + unfold U. rewrite <- Z.mul_assoc, <- pow2_split by lia.
      by replace (- e' + (e' + 1074)) with 1074 by lia.
Qed.

Lemma round_aux_within (mx : positive) ex K S :
  0 ≤ S → 0 ≤ ex + S → Z.pos mx * 2 ^ (ex + S) ≤ K * 2 ^ S → K < 2 ^ 53 →
  B64.within (binary_round_aux B64.prec B64.emax false (Z.pos mx) ex loc_Exact) K
  = true.
Proof.
  intros HS HeS Hle HK. unfold binary_round_aux.
  destruct (first_round_upper mx ex K S HS HeS Hle HK)
    as (mrs & e' & -> & Hmr & He' & Hval).
  cbn zeta in *.
  set (mr := round_nearest_even (shr_m mrs) (loc_of_shr_record mrs)) in *.
  unfold shr_fexp. rewrite fexp_eq.
  set (d2 := Z.max (Zdigits2 mr + e' - 53) (-1074) - e').
  destruct (shr_exact_spec mr e' d2 Hmr) as (mrs2 & -> & Hdiv & _).
  pose proof (pow2_pos (Z.max 0 d2) ltac:(lia)) as Hpd.
  pose proof (pow2_pos (e' + 1074) ltac:(lia)) as Hpe.
  assert (0 ≤ K) as HK0.
  { destruct (decide (0 ≤ K)); [done|]. exfalso.
    assert (K * 2 ^ 1074 < 0); [|nia]. apply Z.mul_neg_pos; lia. }
  assert (0 ≤ shr_m mrs2) as Hm2 by (rewrite Hdiv; apply Z.div_pos; lia).
  destruct (shr_m mrs2) as [|m|m] eqn:Hm; [| |lia].
  - simpl. by rewrite bool_decide_eq_true.
  - assert (Z.pos m * 2 ^ Z.max 0 d2 ≤ mr) as Hfloor.
    { rewrite Hdiv, Z.mul_comm. apply Z.mul_div_le. lia. }
    destruct mr as [|p|p] eqn:Hp; [nia| |lia].
    pose proof (mag_bound p e' K 1074 ltac:(lia) ltac:(lia) Hval HK) as Hmag.
    cbn [Zdigits2] in d2.
    assert (e' + Z.max 0 d2 ≤ 971) as Hfin by lia.
    replace (e' + Z.max 0 d2 <=? B64.emax - B64.prec) with true
      by (symmetry; apply Z.leb_le; unfold B64.emax, B64.prec; lia).
    unfold B64.within, B64.ulps.
    rewrite andb_true_iff, !bool_decide_eq_true. split; [lia|].
    apply Z.le_trans with (Z.pos p * 2 ^ (e' + 1074)); [|done].
    replace (e' + Z.max 0 d2 + 1074) with (Z.max 0 d2 + (e' + 1074)) by lia.
    rewrite pow2_split, Z.mul_assoc by lia.
    apply Z.mul_le_mono_nonneg_r; lia.
Qed.

Lemma bounded_exponent m e :
  bounded B64.prec B64.emax m e = true → -1074 ≤ e ≤ 971.
Proof.
  unfold bounded, canonical_mantissa. rewrite andb_true_iff, Z.eqb_eq, Z.leb_le.
  rewrite fexp_eq. unfold B64.emax, B64.prec. lia.
Qed.

Lemma within_nonneg x K : B64.within x K = true → 0 ≤ K.
Proof.
  destruct x as [s| | |[] m e]; simpl; try done.
  - by rewrite bool_decide_eq_true.
  - rewrite andb_true_iff, !bool_decide_eq_true. unfold B64.ulps.
    intros [He Hle]. pose proof (pow2_pos (e + 1074) ltac:(lia)).
    destruct (decide (0 ≤ K)); [done|]. exfalso.
    assert (K * 2 ^ 1074 < 0) by (apply Z.mul_neg_pos; lia). nia.
Qed.

Lemma within_mono x K K' : B64.within x K = true → K ≤ K' → B64.within x K' = true.
Proof.
  destruct x as [s| | |[] m e]; simpl; try done.
  - rewrite !bool_decide_eq_true. lia.
  - rewrite !andb_true_iff, !bool_decide_eq_true. intros [He Hle] HK.
    split; [done|]. apply Z.le_trans with (K * 2 ^ 1074); [done|].
    apply Z.mul_le_mono_nonneg_r; lia.
Qed.

Lemma b64_mul_within a b :
  B64.in_unit a = true → B64.in_unit b = true →
  B64.within (B64.mul a b) 1 = true.
Proof.
  destruct a as [sa| | |[] ma ea], b as [sb| | |[] mb eb]; try done.
  unfold B64.in_unit. rewrite !andb_true_iff, !bool_decide_eq_true.
  intros [Hba Ha] [Hbb Hb].
  apply bounded_exponent in Hba, Hbb. unfold B64.ulps in *.
  unfold B64.mul, SFmul. simpl xorb.
  apply (round_aux_within _ _ 1 2148); [lia|lia| |lia].
  pose proof (pow2_pos (ea + 1074) ltac:(lia)).
  pose proof (pow2_pos (eb + 1074) ltac:(lia)).
  replace (ea + eb + 2148) with ((ea + 1074) + (eb + 1074)) by lia.
  rewrite pow2_split by lia.
  replace 2148 with (1074 + 1074) by lia. rewrite (pow2_split 1074 1074) by lia.
  rewrite Pos2Z.inj_mul.
  replace (Z.pos ma * Z.pos mb * (2 ^ (ea + 1074) * 2 ^ (eb + 1074)))
    with ((Z.pos ma * 2 ^ (ea + 1074)) * (Z.pos mb * 2 ^ (eb + 1074))) by lia.
  rewrite Z.mul_1_l. apply Z.lt_le_incl. apply Z.mul_lt_mono_nonneg; lia.
Qed.

Lemma shl_align_spec mx ex et :
  snd (shl_align mx ex et) = Z.min ex et ∧
  Z.pos (fst (shl_align mx ex et)) = Z.pos mx * 2 ^ (ex - Z.min ex et).
Proof.
  unfold shl_align. destruct (et - ex) as [|d|d] eqn:Hd; simpl.
  - replace (Z.min ex et) with ex by lia. rewrite Z.sub_diag. simpl. lia.
  - replace (Z.min ex et) with ex by lia. rewrite Z.sub_diag. simpl. lia.
  - replace (Z.min ex et) with et by lia. split; [done|].
    change (Pos.iter xO mx d) with (shift_pos d mx).
    rewrite shift_pos_correct, Z.pow_pos_fold.
    replace (ex - et) with (Z.pos d) by lia. lia.
Qed.

Lemma b64_add_within x y K1 K2 :
  B64.within x K1 = true → B64.within y K2 = true → K1 + K2 < 2 ^ 53 →
  B64.within (B64.add x y) (K1 + K2) = true.
Proof.
  intros Hx Hy HK.
  pose proof (within_nonneg x K1 Hx). pose proof (within_nonneg y K2 Hy).
  destruct x as [sx| | |[] mx ex], y as [sy| | |[] my ey]; try done.
  - destruct sx, sy; simpl; rewrite bool_decide_eq_true; lia.
  - apply (within_mono _ K2); [done|lia].
  - apply (within_mono _ K1); [done|lia].
  - unfold B64.within in Hx, Hy.
    rewrite andb_true_iff, !bool_decide_eq_true in Hx, Hy.
    destruct Hx as [Hex Hx], Hy as [Hey Hy]. unfold B64.ulps in *.
    unfold B64.add, SFadd. simpl cond_Zopp.
    set (ez := Z.min ex ey).
    destruct (shl_align_spec mx ex ez) as [_ Hax].
    destruct (shl_align_spec my ey ez) as [_ Hay].
    replace (Z.min ex ez) with ez in Hax by lia.
    replace (Z.min ey ez) with ez in Hay by lia.
    set (ax := fst (shl_align mx ex ez)) in *.
    set (ay := fst (shl_align my ey ez)) in *.
    change (Z.pos ax + Z.pos ay) with (Z.pos (ax + ay)).
    unfold binary_normalize, binary_round.
    set (et := fexp B64.prec B64.emax (Z.pos (digits2_pos (ax + ay)) + ez)).
    destruct (shl_align_spec (ax + ay) ez et) as [Hez Hmz].
    destruct (shl_align (ax + ay) ez et) as [mz ez']. simpl in Hez, Hmz.
    assert (-1074 ≤ et) as Het by (unfold et; rewrite fexp_eq; lia).
    apply (round_aux_within _ _ _ 1074); [lia|lia| |done].
    rewrite Hmz, Pos2Z.inj_add, Hax, Hay, <- Hez.
    rewrite <- Z.mul_assoc, <- pow2_split by lia.
    replace (ez - ez' + (ez' + 1074)) with (ez + 1074) by lia.
    rewrite Z.mul_add_distr_r, <- !Z.mul_assoc, <- !pow2_split by lia.
    replace (ex - ez + (ez + 1074)) with (ex + 1074) by lia.
    replace (ey - ez + (ez + 1074)) with (ey + 1074) by lia.
    lia.
Qed.

(** ** Inputs in the unit interval *)

Lemma b64_fold_within {A} (f : A → B64.double) (l : list A) K acc K0 :
  0 ≤ K → B64.within acc K0 = true →
  (∀ x, x ∈ l → B64.within (f x) K = true) →
  K0 + K * Z.of_nat (length l) < 2 ^ 53 →
  B64.within (fold_left (λ sum x, B64.add sum (f x)) l acc)
             (K0 + K * Z.of_nat (length l)) = true.
Proof.
  intros HK. revert acc K0. induction l as [|x l IH]; intros acc K0 Hacc Hl Hlt.
  - simpl. by rewrite Z.mul_0_r, Z.add_0_r.
  - simpl fold_left. rewrite length_cons, Nat2Z.inj_succ in *.
    replace (K0 + K * Z.succ (Z.of_nat (length l)))
      with ((K0 + K) + K * Z.of_nat (length l)) in * by lia.
    apply IH; [|intros y Hy; apply Hl; by right|done].
    apply b64_add_within; [done|apply Hl; by left|nia].
Qed.

Lemma b64_dot_within (A B : list B64.double) n i j :
  0 < n → n < 2 ^ 53 →
  Forall (λ x, B64.in_unit x = true) A → Forall (λ x, B64.in_unit x = true) B →
  Z.of_nat (length A) = n * n → Z.of_nat (length B) = n * n →
  0 ≤ i < n → 0 ≤ j < n →
  B64.within (dot B64.zero B64.add B64.mul A B n i j) n = true.
Proof.
  intros Hn Hlt HA HB HlA HlB Hi Hj. rewrite dot_eq.
  pose proof (b64_fold_within
    (λ k, B64.mul (cell B64.zero A (index n i k)) (cell B64.zero B (index n k j)))
    (seqZ 0 n) 1 B64.zero 0) as Hfold.
  rewrite length_seqZ, Z2Nat.id in Hfold by lia.
  replace (0 + 1 * n) with n in Hfold by lia.
  apply Hfold; [lia|done| |done].
  intros k Hk. apply elem_of_seqZ in Hk.
  apply b64_mul_within.
  - by apply (Forall_cell B64.zero (λ x, B64.in_unit x = true)); try lia.
  - by apply (Forall_cell B64.zero (λ x, B64.in_unit x = true)); try lia.
Qed.

Lemma b64_total_within (R : list B64.double) K :
  0 ≤ K → Forall (λ x, B64.within x K = true) R →
  K * Z.of_nat (length R) < 2 ^ 53 →
  B64.within (total B64.zero B64.add R) (K * Z.of_nat (length R)) = true.
Proof.
  intros HK HR Hlt.
  pose proof (b64_fold_within (λ x, x) R K B64.zero 0 HK) as Hfold.
  rewrite Z.add_0_l in Hfold. apply Hfold; [by apply bool_decide_eq_true| |done].
  intros x Hx. rewrite Forall_forall in HR. by apply HR.
Qed.

(** Every [n] whose square fits an [int] has a cube below [2^53]. *)
Lemma cube_fits n : 0 < n → n * n ≤ INT_MAX → n * n * n < 2 ^ 53.
Proof.
  unfold INT_MAX. intros Hn Hsq. assert (n ≤ 46340) by nia.
  apply Z.le_lt_trans with (46340 * 46340 * 46340); [|done].
  apply Z.mul_le_mono_nonneg; [nia|nia|lia|lia].
Qed.

(** C8 (inputs in [[0, 1)]): for an [int] [n > 0] whose square is an
    [int], if every entry of [A] and [B] is a double in [[0, 1)], then
    either kernel leaves a result all of whose entries are finite
    and in [[0, n]], and the checksum of the result is finite and in
    [[0, n³]]. *)
Theorem product_in_range a b bt ra rb n (σ : @state B64.double) A B T0 RA RB :
  0 < n → n * n ≤ INT_MAX →
  ra ≠ a → ra ≠ b → bt ≠ a → bt ≠ b → rb ≠ a → rb ≠ bt →
  holds n σ a A → holds n σ b B → holds n σ bt T0 →
  holds n σ ra RA → holds n σ rb RB →
  Forall (λ x, B64.in_unit x = true) A →
  Forall (λ x, B64.in_unit x = true) B →
  ∃ σ1 σ3 R c,
    multiplyNaive B64.zero B64.add B64.mul a b ra n σ = Some σ1 ∧
    buildTranspose b bt n σ
      ≫= multiplyWithTranspose B64.zero B64.add B64.mul a bt rb n = Some σ3 ∧
    vecs σ1 !! ra = Some R ∧ vecs σ3 !! rb = Some R ∧
    Forall (λ x, B64.within x n = true) R ∧
    checksum B64.zero B64.add ra n σ1 = Some c ∧
    checksum B64.zero B64.add rb n σ3 = Some c ∧
    B64.within c (n * n * n) = true.
Proof.
  intros Hn Hsq ? ? ? ? ? ? HA HB HT HRA HRB HuA HuB.
  pose proof (cube_fits n Hn Hsq) as Hcube.
  assert (n < 2 ^ 53) as Hn53 by nia.
  set (R := product B64.zero B64.add B64.mul A B n).
  assert (Z.of_nat (length R) = n * n) as HlR by (apply length_product; lia).
  assert (Forall (λ x, B64.within x n = true) R) as HR.
  { unfold R. rewrite product_eq. apply Forall_tabulate; [done|].
    intros i j Hi Hj. apply b64_dot_within; (done || apply HA || apply HB). }
  exists (State (<[ra := R]> (vecs σ))
                (log σ ++ Call MultiplyNaive :: (Store ra <$> seqZ 0 (n * n)))).
  eexists _, R, (total B64.zero B64.add R).
  split; [apply (multiplyNaive_spec B64.zero B64.add B64.mul a b ra n σ A B RA);
          try lia; try done; (apply HA || apply HB || apply HRA)|].
  split; [by eapply transposed_route_spec|].
  simpl. rewrite !lookup_insert_eq.
  rewrite !(checksum_spec B64.zero B64.add _ n _ R)
    by (simpl; done || by rewrite lookup_insert_eq).
  do 5 (split; [done|]).
  replace (n * n * n) with (n * Z.of_nat (length R)) by lia.
  apply b64_total_within; [lia|done|]. rewrite HlR. lia.
Qed.

(** ** The statements at work on a small instance *)

Lemma buildTranspose_correct_witness :
  ∃ σ' T,
    buildTranspose mul2 mul2T 2 Demo.σ = Some σ' ∧
    holds 2 σ' mul2T T ∧
    T = transposed B64.zero Demo.B 2 ∧
    (∀ i j, 0 ≤ i < 2 → 0 ≤ j < 2 →
       is_Some (at_ Demo.B (index 2 j i)) ∧
       at_ T (index 2 i j) = at_ Demo.B (index 2 j i)) ∧
    vecs σ' !! mul2 = Some Demo.B ∧
    (∀ v, v ≠ mul2T → vecs σ' !! v = vecs Demo.σ !! v).
Proof.
  apply (buildTranspose_correct B64.zero mul2 mul2T 2 Demo.σ Demo.B
           (zeros B64.zero 2)); [lia | by vm_compute | done | split; reflexivity..].
Defined.

Lemma buildTranspose_involution_witness :
  ∃ σ1 σ2,
    buildTranspose mul2 mul2T 2 Demo.σ = Some σ1 ∧
    buildTranspose mul2T resB 2 σ1 = Some σ2 ∧
    vecs σ2 !! resB = Some Demo.B.
Proof.
  apply (buildTranspose_involution B64.zero mul2 mul2T resB 2 Demo.σ Demo.B
           (zeros B64.zero 2) (zeros B64.zero 2));
    [lia | by vm_compute | done | done | split; reflexivity..].
Defined.

Lemma multiplyNaive_cells_witness :
  ∃ σ' R written,
    multiplyNaive B64.zero B64.add B64.mul mul1 mul2 resA 2 Demo.σ = Some σ' ∧
    holds 2 σ' resA R ∧
    (∀ i j, 0 ≤ i < 2 → 0 ≤ j < 2 →
       at_ R (index 2 i j)
       = Some (fold_left
                 (λ sum k, B64.add sum
                    (B64.mul (cell B64.zero Demo.A (index 2 i k))
                             (cell B64.zero Demo.B (index 2 k j))))
                 (seqZ 0 2) B64.zero)) ∧
    log σ' = log Demo.σ ++ Call MultiplyNaive :: written ∧
    NoDup written ∧
    (∀ e, e ∈ written ↔
          ∃ i j, 0 ≤ i < 2 ∧ 0 ≤ j < 2 ∧ e = Store resA (index 2 i j)).
Proof.
  apply (multiplyNaive_cells B64.zero B64.add B64.mul mul1 mul2 resA 2 Demo.σ
           Demo.A Demo.B (zeros B64.zero 2));
    [lia | by vm_compute | done | done | split; reflexivity..].
Defined.

Lemma kernels_agree_witness :
  ∃ σ1 σ2 σ3 R c,
    multiplyNaive B64.zero B64.add B64.mul mul1 mul2 resA 2 Demo.σ = Some σ1 ∧
    buildTranspose mul2 mul2T 2 Demo.σ = Some σ2 ∧
    multiplyWithTranspose B64.zero B64.add B64.mul mul1 mul2T resB 2 σ2 = Some σ3 ∧
    holds 2 σ1 resA R ∧ holds 2 σ3 resB R ∧
    checksum B64.zero B64.add resA 2 σ1 = Some c ∧
    checksum B64.zero B64.add resB 2 σ3 = Some c.
Proof.
  apply (kernels_agree B64.zero B64.add B64.mul mul1 mul2 mul2T resA resB 2
           Demo.σ Demo.A Demo.B (zeros B64.zero 2) (zeros B64.zero 2)
           (zeros B64.zero 2));
    [lia | by vm_compute | done | done | done | done | done | done | split; reflexivity..].
Defined.

Lemma accesses_in_bounds_witness :
  (∀ row col, 0 ≤ row < 2 → 0 ≤ col < 2 →
     0 ≤ row * 2 ≤ INT_MAX ∧ 0 ≤ index 2 row col < 2 * 2 ∧
     index 2 row col ≤ INT_MAX) ∧
  is_Some (buildTranspose mul2 mul2T 2 Demo.σ) ∧
  is_Some (multiplyNaive B64.zero B64.add B64.mul mul1 mul2 resA 2 Demo.σ) ∧
  is_Some (multiplyWithTranspose B64.zero B64.add B64.mul mul1 mul2T resA 2 Demo.σ) ∧
  is_Some (checksum B64.zero B64.add resA 2 Demo.σ).
Proof.
  apply (accesses_in_bounds B64.zero B64.add B64.mul mul1 mul2 mul2T resA 2 Demo.σ);
    [lia | by vm_compute | eexists; split; reflexivity..].
Defined.

Lemma identity_product_witness :
  let σ := with_inputs B64.zero (identity B64.zero B64.one 2) Demo.B 2 in
  ∃ σ1 σ3,
    multiplyNaive B64.zero B64.add B64.mul mul1 mul2 resA 2 σ = Some σ1 ∧
    buildTranspose mul2 mul2T 2 σ
      ≫= multiplyWithTranspose B64.zero B64.add B64.mul mul1 mul2T resB 2 = Some σ3 ∧
    vecs σ1 !! resA = Some Demo.B ∧ vecs σ3 !! resB = Some Demo.B ∧
    checksum B64.zero B64.add resA 2 σ1 = Some (total B64.zero B64.add Demo.B) ∧
    checksum B64.zero B64.add resB 2 σ3 = Some (total B64.zero B64.add Demo.B) ∧
    B64.bits <$> checksum B64.zero B64.add resA 2 σ1
      = Some (B64.bits (total B64.zero B64.add Demo.B)) ∧
    B64.bits <$> checksum B64.zero B64.add resB 2 σ3
      = Some (B64.bits (total B64.zero B64.add Demo.B)).
Proof.
  apply (identity_product mul1 mul2 mul2T resA resB 2 _ Demo.B
           (zeros B64.zero 2) (zeros B64.zero 2) (zeros B64.zero 2));
    [lia | by vm_compute | done | done | done | done | done | done
    | split; reflexivity | split; reflexivity | split; reflexivity
    | split; reflexivity | split; reflexivity
    | repeat constructor].
Defined.

Lemma generation_deterministic_witness :
  let e1 := Env ["./benchmark"] 17 1000 2500000 in
  let e2 := Env ["./benchmark"; "transpose"] 4242 77 9000077 in
  ∃ out1 out2,
    Demo.main_n 2 e1 = Some out1 ∧ Demo.main_n 2 e2 = Some out2 ∧
    vecs (final out1) !! mul1 = Some (input1 (λ s, s) Demo.dist 89899898 2) ∧
    vecs (final out2) !! mul1 = Some (input1 (λ s, s) Demo.dist 89899898 2) ∧
    vecs (final out1) !! mul2 = Some (input2 (λ s, s) Demo.dist 89899898 2) ∧
    vecs (final out2) !! mul2 = Some (input2 (λ s, s) Demo.dist 89899898 2).
Proof.
  apply (generation_deterministic B64.zero B64.add B64.mul (λ s, s) Demo.dist
           B64.bits 2); lia.
Defined.

Lemma one_kernel_per_run_witness :
  let e1 := Env ["./benchmark"] 17 1000 2500000 in
  let e2 := Env ["./benchmark"; "--transpose"] 17 1000 2500000 in
  (∃ out,
     Demo.main_n 2 e1 = Some out ∧
     calls (log (final out)) = [MultiplyNaive] ∧
     ∃ rest, stdout out = "naive ms: " +:+ rest) ∧
  (∃ out,
     Demo.main_n 2 e2 = Some out ∧
     calls (log (final out)) = [BuildTranspose; MultiplyWithTranspose] ∧
     multiplications (log (final out)) = [MultiplyWithTranspose] ∧
     ∃ rest, stdout out = "transposed ms: " +:+ rest).
Proof.
  intros e1 e2. split.
  - destruct (one_kernel_per_run B64.zero B64.add B64.mul (λ s, s) Demo.dist
                B64.bits 2 e1 ltac:(lia)) as (out & Hrun & _ & Hnaive & _).
    exists out. split; [exact Hrun|]. apply Hnaive.
    by apply transposeMode_false_iff.
  - destruct (one_kernel_per_run B64.zero B64.add B64.mul (λ s, s) Demo.dist
                B64.bits 2 e2 ltac:(lia)) as (out & Hrun & _ & _ & Htransposed).
    exists out. split; [exact Hrun|]. apply Htransposed.
    by apply transposeMode_true_iff.
Defined.

Lemma mode_scans_all_argv_witness :
  let e := Env ["/opt/transpose-demo/benchmark"] 17 1000 2500000 in
  (transposeMode (argv e) = true ↔ ∃ s, s ∈ argv e ∧ contains s "transpose") ∧
  (∀ path, argv e = [path] → contains path "transpose" →
     ∃ out,
       Demo.main_n 2 e = Some out ∧
       calls (log (final out)) = [BuildTranspose; MultiplyWithTranspose] ∧
       ∃ rest, stdout out = "transposed ms: " +:+ rest).
Proof.
  apply (mode_scans_all_argv B64.zero B64.add B64.mul (λ s, s) Demo.dist
           B64.bits 2); lia.
Defined.

Lemma product_in_range_witness :
  ∃ σ1 σ3 R c,
    multiplyNaive B64.zero B64.add B64.mul mul1 mul2 resA 2 Demo.σ = Some σ1 ∧
    buildTranspose mul2 mul2T 2 Demo.σ
      ≫= multiplyWithTranspose B64.zero B64.add B64.mul mul1 mul2T resB 2 = Some σ3 ∧
    vecs σ1 !! resA = Some R ∧ vecs σ3 !! resB = Some R ∧
    Forall (λ x, B64.within x 2 = true) R ∧
    checksum B64.zero B64.add resA 2 σ1 = Some c ∧
    checksum B64.zero B64.add resB 2 σ3 = Some c ∧
    B64.within c (2 * 2 * 2) = true.
Proof.
  apply (product_in_range mul1 mul2 mul2T resA resB 2 Demo.σ Demo.A Demo.B
           (zeros B64.zero 2) (zeros B64.zero 2) (zeros B64.zero 2));
    [lia | by vm_compute | done | done | done | done | done | done
    | split; reflexivity | split; reflexivity | split; reflexivity
    | split; reflexivity | split; reflexivity
    | repeat constructor | repeat constructor].
Defined.

(** *** Runs of the harness and the limits of the statements *)

Example demo_run_naive :
  stdout <$> Demo.main_n 2 (Env ["./benchmark"] 17 1000 2500999)
  = Some ("naive ms: 2" +:+ newline +:+
          "checksum: 400479ecf87f1c00" +:+ newline).
Proof. vm_compute. reflexivity. Qed.

Example demo_run_transposed :
  stdout <$> Demo.main_n 2 (Env ["./benchmark"; "transpose"] 17 1000 7000000)
  = Some ("transposed ms: 6" +:+ newline +:+
          "checksum: 400479ecf87f1c00" +:+ newline).
Proof. vm_compute. reflexivity. Qed.

(** Transposing a vector into itself is not transposition: the second
    row is read after the first column has been overwritten. *)
Example buildTranspose_in_place :
  let M := B64.of_Z <$> [1; 2; 3; 4] in
  (vecs <$> buildTranspose mul1 mul1 2 (with_inputs B64.zero M [] 2))
    ≫= (.!! mul1)
  = Some (B64.of_Z <$> [1; 3; 3; 4]).
Proof. vm_compute. reflexivity. Qed.

(** A negative zero in [B] comes back from the product with the
    identity as a positive zero: equal as doubles compare, different in
    its bit pattern. *)
Example identity_times_negative_zero :
  let B := [S754_zero true; B64.one; B64.one; B64.one] in
  (vecs <$> multiplyNaive B64.zero B64.add B64.mul mul1 mul2 resA 2
              (with_inputs B64.zero (identity B64.zero B64.one 2) B 2))
    ≫= (.!! resA)
  = Some [S754_zero false; B64.one; B64.one; B64.one].
Proof. vm_compute. reflexivity. Qed.

Example bits_of_one_tenth : hex (B64.bits (B64.frac 1 10)) = "3fb999999999999a".
Proof. vm_compute. reflexivity. Qed.

(** * Further properties of the code *)

(** ** The routines beyond the claims *)

Section MoreRoutines.
Context {D : Type}.
Variable dzero : D.
Variables dadd dmul : D → D → D.

Local Abbreviation state := (@state D).
Local Abbreviation cell := (cell dzero).
Local Abbreviation dot := (dot dzero dadd dmul).
Local Abbreviation product := (product dzero dadd dmul).
Local Abbreviation transposed := (transposed dzero).
Local Abbreviation multiplyNaive := (multiplyNaive dzero dadd dmul).
Local Abbreviation multiplyWithTranspose := (multiplyWithTranspose dzero dadd dmul).

Lemma dot_rows_eq (A T : list D) n i j :
  dot_rows dzero dadd dmul A T n i j
  = fold_left (λ sum k, dadd sum (dmul (cell A (index n i k))
                                       (cell T (index n j k))))
              (seqZ 0 n) dzero.
Proof. reflexivity. Qed.

(** The stores of a sweep over [res]: no duplicates, one per cell. *)
Lemma stores_once (res : vecref) n :
  0 < n →
  NoDup (Store res <$> seqZ 0 (n * n)) ∧
  ∀ e, e ∈ (Store res <$> seqZ 0 (n * n)) ↔
       ∃ i j, 0 ≤ i < n ∧ 0 ≤ j < n ∧ e = Store res (index n i j).
Proof.
  intros Hn. split.
  - apply NoDup_fmap_2; [|apply NoDup_seqZ]. by intros p q [= ->].
  - intros e. rewrite list_elem_of_fmap. setoid_rewrite elem_of_seqZ. split.
    + intros (p & -> & Hp). destruct (div_mod_range n p) as [? ?]; [lia..|].
      exists (p `div` n), (p `mod` n). by rewrite index_of_div_mod.
    + intros (i & j & Hi & Hj & ->). exists (index n i j).
      pose proof (index_bound n i j Hi Hj). split; [done|lia].
Qed.

(** X1 (multiplyWithTranspose, cell by cell): for an [int] [n > 0]
    whose square is an [int] and vectors of [n²] elements, [multiplyWithTranspose] succeeds and leaves in every
    cell [res[i*n + j]] the sum over [k = 0 .. n-1] of
    [mul1[i*n + k] * mul2T[j*n + k]], accumulated from [0.0] in
    increasing [k]: row [i] of the first operand against row [j] of the
    second.  It stores once into each cell of [res]. *)
Theorem multiplyWithTranspose_cells mul1 mul2T res n (σ : state) A T R0 :
  0 < n → n * n ≤ INT_MAX → res ≠ mul1 → res ≠ mul2T →
  holds n σ mul1 A → holds n σ mul2T T → holds n σ res R0 →
  ∃ σ' R written,
    multiplyWithTranspose mul1 mul2T res n σ = Some σ' ∧
    holds n σ' res R ∧
    (∀ i j, 0 ≤ i < n → 0 ≤ j < n →
       at_ R (index n i j)
       = Some (fold_left
                 (λ sum k, dadd sum (dmul (cell A (index n i k))
                                          (cell T (index n j k))))
                 (seqZ 0 n) dzero)) ∧
    log σ' = log σ ++ Call MultiplyWithTranspose :: written ∧
    NoDup written ∧
    (∀ e, e ∈ written ↔ ∃ i j, 0 ≤ i < n ∧ 0 ≤ j < n ∧ e = Store res (index n i j)).
Proof.
  intros Hn _ Hn1 Hn2 [HA HlA] [HT HlT] [HR HlR].
  destruct (stores_once res n Hn) as [Hnd Hmem].
  eexists _, (tabulate n (dot_rows dzero dadd dmul A T n)),
          (Store res <$> seqZ 0 (n * n)).
  split; [by eapply multiplyWithTranspose_spec; try lia|].
  unfold holds. simpl. rewrite lookup_insert_eq, length_tabulate.
  split; [split; [done|lia]|]. split; [|done].
  intros i j Hi Hj. by rewrite at_tabulate.
Qed.

(** X5 (the transposed kernel on an untransposed operand): for an [int]
    [n > 0] whose square is an [int], applied to [A] and [B] directly, [multiplyWithTranspose] leaves what
    [multiplyNaive] leaves for [A] and the transpose of [B]: it computes
    [A] times [B] transposed. *)
Theorem multiplyWithTranspose_untransposed a b bt ra rb n (σ : state)
    A B T0 RA RB :
  0 < n → n * n ≤ INT_MAX →
  ra ≠ a → ra ≠ b → bt ≠ a → bt ≠ b → rb ≠ a → rb ≠ bt →
  holds n σ a A → holds n σ b B → holds n σ bt T0 →
  holds n σ ra RA → holds n σ rb RB →
  ∃ σ1 σ3 R,
    multiplyWithTranspose a b ra n σ = Some σ1 ∧
    buildTranspose b bt n σ ≫= multiplyNaive a bt rb n = Some σ3 ∧
    vecs σ1 !! ra = Some R ∧ vecs σ3 !! rb = Some R ∧
    R = product A (transposed B n) n.
Proof.
  intros Hn _ ? ? ? ? ? ? [HA HlA] [HB HlB] [HT HlT] [HRA HlRA] [HRB HlRB].
  eexists _, _, (product A (transposed B n) n).
  split; [by eapply multiplyWithTranspose_spec; try lia|].
  rewrite (buildTranspose_spec dzero b bt n σ B T0) by (done || lia). simpl.
  split.
  { apply (multiplyNaive_spec dzero dadd dmul a bt rb n _ A (transposed B n) RB);
      try lia; try done; simpl.
    - by rewrite lookup_insert_ne.
    - by rewrite lookup_insert_eq.
    - by rewrite lookup_insert_ne.
    - apply length_transposed. lia. }
  simpl. rewrite !lookup_insert_eq. split; [|done]. f_equal.
  rewrite product_eq. apply tabulate_ext; [done|]. intros i j Hi Hj.
  rewrite dot_rows_eq, dot_eq. apply fold_left_ext_in.
  intros sum k Hk. apply elem_of_seqZ in Hk. do 2 f_equal.
  rewrite (cell_eq dzero (transposed B n)), at_transposed by lia. done.
Qed.


(** The transpose permutes the cells: position [p] goes to the position
    with row and column exchanged. *)
Lemma transposed_Permutation (M : list D) n :
  0 < n → Z.of_nat (length M) = n * n → transposed M n ≡ₚ M.
Proof.
  intros Hn Hlen.
  assert (M = cell M <$> seqZ 0 (n * n)) as HM.
  { apply list_eq. intros k. rewrite list_lookup_fmap.
    destruct (decide (Z.of_nat k < n * n)) as [Hk|Hk].
    - rewrite lookup_seqZ_lt by lia. simpl. rewrite Z.add_0_l.
      rewrite <- (at_cell dzero M) by lia. rewrite at_lookup by lia.
      by rewrite Nat2Z.id.
    - rewrite lookup_seqZ_ge by lia. simpl. apply lookup_ge_None_2. lia. }
  rewrite HM at 2. rewrite transposed_eq. unfold tabulate.
  change (λ p, cell M (index n (p `mod` n) (p `div` n)))
    with (cell M ∘ (λ p, index n (p `mod` n) (p `div` n))).
  rewrite list_fmap_compose. apply fmap_Permutation.
  apply NoDup_Permutation.
  - apply NoDup_fmap_2_strong; [|apply NoDup_seqZ].
    intros p q Hp Hq Heq. apply elem_of_seqZ in Hp, Hq.
    destruct (div_mod_range n p) as [? ?]; [lia..|].
    destruct (div_mod_range n q) as [? ?]; [lia..|].
    apply index_inj in Heq as [Hm Hd]; [|lia..].
    rewrite <- (index_of_div_mod n p), <- (index_of_div_mod n q) by lia.
    by rewrite Hm, Hd.
  - apply NoDup_seqZ.
  - intros p. rewrite list_elem_of_fmap. setoid_rewrite elem_of_seqZ. split.
    + intros (q & -> & Hq). destruct (div_mod_range n q) as [? ?]; [lia..|].
      pose proof (index_bound n (q `mod` n) (q `div` n)). lia.
    + intros Hp. destruct (div_mod_range n p) as [? ?]; [lia..|].
      exists (index n (p `mod` n) (p `div` n)).
      rewrite index_div, index_mod by lia.
      rewrite index_of_div_mod by lia. split; [done|].
      pose proof (index_bound n (p `mod` n) (p `div` n)). lia.
Qed.

(** X6 (the transpose rearranges): for an [int] [n > 0] whose square is
    an [int], what [buildTranspose]
    leaves in [mulT] is a permutation of the entries of [M]: every entry
    of [M] occurs in it as often as in [M], none is lost or invented. *)
Theorem buildTranspose_permutes mul mulT n (σ : state) M T0 :
  0 < n → n * n ≤ INT_MAX →
  mul ≠ mulT → holds n σ mul M → holds n σ mulT T0 →
  ∃ σ' T,
    buildTranspose mul mulT n σ = Some σ' ∧
    vecs σ' !! mulT = Some T ∧ T ≡ₚ M.
Proof.
  intros Hn _ Hne [HM HlM] [HT HlT].
  eexists _, (transposed M n).
  split; [by eapply buildTranspose_spec; try lia|]. simpl.
  split; [by rewrite lookup_insert_eq|]. by apply transposed_Permutation.
Qed.

End MoreRoutines.

(** ** What the routines write, whatever aliases what *)

Section Footprint.
Context {D : Type}.
Variable dzero : D.
Variables dadd dmul : D → D → D.

Local Abbreviation state := (@state D).

Lemma store_effect (σ σ' : state) v i x :
  store v i x σ = Some σ' →
  (∀ w, w ≠ v → vecs σ' !! w = vecs σ !! w) ∧ log σ' = log σ ++ [Store v i].
Proof.
  unfold store. destruct (vecs σ !! v) as [xs|]; simpl; [|done].
  case_decide; [|done]. intros [= <-]. simpl. split; [|done].
  intros w Hw. by rewrite lookup_insert_ne.
Qed.

(** A sweep over [res] changes [res] only, keeps every length and logs
    one store per cell in row-major order, aliasing or not. *)
Lemma sweep_footprint (compute : Z → Z → state → option D) res n (σ0 : state) :
  0 ≤ n → sized n σ0 res →
  (∀ i j σ, 0 ≤ i < n → 0 ≤ j < n →
     (∀ v, sized n σ0 v → sized n σ v) → is_Some (compute i j σ)) →
  ∃ σ', for_int n (λ i,
          for_int n (λ j σ, x ← compute i j σ; store res (index n i j) x σ))
          σ0 = Some σ'
        ∧ (∀ v, sized n σ0 v → sized n σ' v)
        ∧ (∀ v, v ≠ res → vecs σ' !! v = vecs σ0 !! v)
        ∧ log σ' = log σ0 ++ (Store res <$> seqZ 0 (n * n)).
Proof.
  intros Hn Hres Hcomp.
  set (I := λ (p : Z) (σ : state),
         (∀ v, sized n σ0 v → sized n σ v)
         ∧ (∀ v, v ≠ res → vecs σ !! v = vecs σ0 !! v)
         ∧ log σ = log σ0 ++ (Store res <$> seqZ 0 p)).
  destruct (for_int_inv (λ i σ, I (i * n) σ) n
    (λ i, for_int n (λ j σ, x ← compute i j σ; store res (index n i j) x σ))
    σ0) as (σ' & Hrun & HI); [done| | |by exists σ'].
  { split; [done|]. split; [done|]. rewrite seqZ_nil by lia. simpl.
    by rewrite app_nil_r. }
  intros i σ Hi Hσ.
  destruct (for_int_inv (λ j σ, I (index n i j) σ) n
    (λ j σ, x ← compute i j σ; store res (index n i j) x σ) σ)
    as (σ' & Hrun & HI); [done| | |].
  - unfold index. by rewrite Z.add_0_r.
  - intros j σj Hj (Hsz & Hfr & Hlog).
    destruct (Hcomp i j σj Hi Hj Hsz) as [x Hx].
    destruct (store_is_Some n σj res (index n i j) x) as [σ'' Hst];
      [by apply Hsz | by apply index_bound |].
    exists σ''. cbv beta. rewrite Hx. simpl. split; [done|].
    destruct (store_effect _ _ _ _ _ Hst) as [Hfr' Hlog'].
    pose proof (index_bound n i j Hi Hj).
    split; [|split].
    + intros v Hv. eapply store_sized; eauto.
    + intros v Hv. rewrite Hfr' by done. by apply Hfr.
    + replace (index n i (j + 1)) with (index n i j + 1) by (unfold index; lia).
      rewrite Hlog', Hlog, seqZ_app, fmap_app, app_assoc by lia. by f_equal.
  - exists σ'. split; [done|].
    replace ((i + 1) * n) with (index n i n) by (unfold index; lia). done.
Qed.

(** X2 (footprint of the routines): for an [int] [n > 0] whose square
    is an [int] and vectors of [n²] elements, aliased or not, each of [buildTranspose], [multiplyNaive]
    and [multiplyWithTranspose] returns; it leaves every vector other
    than its destination as it was, keeps the length of its destination,
    and its writes are one store per destination cell in index order
    [0, 1, ..., n² - 1]. *)
Theorem routines_footprint mul1 mul2 mul2T res n (σ : state) :
  0 < n → n * n ≤ INT_MAX →
  sized n σ mul1 → sized n σ mul2 → sized n σ mul2T → sized n σ res →
  (∃ σ', buildTranspose mul2 mul2T n σ = Some σ' ∧
         (∀ v, v ≠ mul2T → vecs σ' !! v = vecs σ !! v) ∧ sized n σ' mul2T ∧
         log σ' = log σ ++ Call BuildTranspose :: (Store mul2T <$> seqZ 0 (n * n))) ∧
  (∃ σ', multiplyNaive dzero dadd dmul mul1 mul2 res n σ = Some σ' ∧
         (∀ v, v ≠ res → vecs σ' !! v = vecs σ !! v) ∧ sized n σ' res ∧
         log σ' = log σ ++ Call MultiplyNaive :: (Store res <$> seqZ 0 (n * n))) ∧
  (∃ σ', multiplyWithTranspose dzero dadd dmul mul1 mul2T res n σ = Some σ' ∧
         (∀ v, v ≠ res → vecs σ' !! v = vecs σ !! v) ∧ sized n σ' res ∧
         log σ' = log σ ++ Call MultiplyWithTranspose :: (Store res <$> seqZ 0 (n * n))).
Proof.
  intros Hn _ H1 H2 HT HR. split; [|split].
  - unfold buildTranspose.
    destruct (sweep_footprint (λ i j, load mul2 (index n j i)) mul2T n
                (enter BuildTranspose σ)) as (σ' & Hrun & Hsz & Hfr & Hlog);
      [lia|done| |].
    { intros i j σ' Hi Hj Hσ'. eapply load_is_Some; [by apply Hσ'|].
      by apply index_bound. }
    exists σ'. split; [done|]. split; [done|]. split; [by apply Hsz|].
    rewrite Hlog. simpl. by rewrite <- app_assoc.
  - unfold multiplyNaive.
    destruct (sweep_footprint (dotNaive dzero dadd dmul mul1 mul2 n) res n
                (enter MultiplyNaive σ)) as (σ' & Hrun & Hsz & Hfr & Hlog);
      [lia|done| |].
    { intros i j σ' Hi Hj Hσ'.
      apply (inner_safe dzero dadd dmul mul1 mul2 (index n i) (λ k, index n k j));
        [by apply Hσ'..|].
      intros k Hk. split; by apply index_bound. }
    exists σ'. split; [done|]. split; [done|]. split; [by apply Hsz|].
    rewrite Hlog. simpl. by rewrite <- app_assoc.
  - unfold multiplyWithTranspose.
    destruct (sweep_footprint (dotTransposed dzero dadd dmul mul1 mul2T n) res n
                (enter MultiplyWithTranspose σ)) as (σ' & Hrun & Hsz & Hfr & Hlog);
      [lia|done| |].
    { intros i j σ' Hi Hj Hσ'.
      apply (inner_safe dzero dadd dmul mul1 mul2T (index n i) (index n j));
        [by apply Hσ'..|].
      intros k Hk. split; by apply index_bound. }
    exists σ'. split; [done|]. split; [done|]. split; [by apply Hsz|].
    rewrite Hlog. simpl. by rewrite <- app_assoc.
Qed.

End Footprint.

(** ** A destination that is too short *)

Section ShortDestination.
Context {D : Type}.
Variable dzero : D.
Variables dadd dmul : D → D → D.

Local Abbreviation state := (@state D).

Lemma for_int_fail {S} (body : Z → S → option S) n k s t :
  0 ≤ k < n → for_int k body s = Some t → body k t = None →
  for_int n body s = None.
Proof.
  intros Hk Hrun Hfail. unfold for_int in *.
  replace n with (k + (n - k)) by lia.
  rewrite seqZ_app, for_each_app, Hrun by lia. simpl.
  rewrite seqZ_cons by lia. simpl. rewrite Z.add_0_l. by rewrite Hfail.
Qed.

Lemma store_swept_below res (f : Z → Z → D) n R0 (m0 : gmap vecref (list D))
    lg0 i j :
  0 ≤ i < n → 0 ≤ j < n → index n i j < Z.of_nat (length R0) →
  store res (index n i j) (f i j) (swept res f n R0 m0 lg0 (index n i j))
  = Some (swept res f n R0 m0 lg0 (index n i j + 1)).
Proof.
  intros Hi Hj Hlt. pose proof (index_bound n i j Hi Hj) as Hp.
  unfold store, swept. simpl. rewrite lookup_insert_eq. simpl.
  rewrite decide_True; last first.
  { rewrite length_app, length_take, length_drop, length_tabulate. lia. }
  do 2 f_equal.
  - rewrite insert_insert_eq. f_equal.
    replace (Z.to_nat (index n i j + 1)) with (Datatypes.S (Z.to_nat (index n i j))) by lia.
    apply insert_take_drop; [|lia].
    rewrite lookup_tabulate by lia. by rewrite index_div, index_mod.
  - rewrite seqZ_app, fmap_app, app_assoc by lia. by f_equal.
Qed.

Lemma store_swept_end res (f : Z → Z → D) n R0 (m0 : gmap vecref (list D))
    lg0 p x :
  p = Z.of_nat (length R0) →
  store res p x (swept res f n R0 m0 lg0 p) = None.
Proof.
  intros ->. unfold store, swept. simpl. rewrite lookup_insert_eq. simpl.
  rewrite decide_False; [done|].
  rewrite length_app, length_take, length_drop. lia.
Qed.

(** A sweep over a destination of fewer than [n²] elements fills the
    cells there are and then stores out of range. *)
Lemma sweep_short (compute : Z → Z → state → option D) f res n
    (m0 : gmap vecref (list D)) lg0 R0 :
  0 < n → m0 !! res = Some R0 → Z.of_nat (length R0) < n * n →
  (∀ i j, 0 ≤ i < n → 0 ≤ j < n →
     compute i j (swept res f n R0 m0 lg0 (index n i j)) = Some (f i j)) →
  for_int n (λ i,
    for_int n (λ j σ, x ← compute i j σ; store res (index n i j) x σ))
    (State m0 lg0) = None.
Proof.
  intros Hn Hres Hlen Hcomp.
  set (L := Z.of_nat (length R0)) in *.
  set (sw := swept res f n R0 m0 lg0).
  destruct (div_mod_range n L) as [Hi0 Hj0]; [lia..|].
  pose proof (index_of_div_mod n L Hn) as HL. unfold index in HL.
  set (inner := λ i j (σ : state), x ← compute i j σ; store res (index n i j) x σ).
  assert (∀ i k, 0 ≤ i < n → 0 ≤ k ≤ n → index n i k ≤ L →
            for_int k (inner i) (sw (index n i 0)) = Some (sw (index n i k)))
    as Hinner.
  { intros i k Hi Hk Hle.
    edestruct (for_int_inv (λ j σ, σ = sw (index n i j)) k (inner i)
                 (sw (index n i 0))) as (t & -> & ->); [lia|done| |done].
    intros j σ Hj ->. exists (sw (index n i j + 1)). split.
    - unfold inner, sw. rewrite Hcomp by lia. simpl.
      apply store_swept_below; [lia..|]. unfold index in *. nia.
    - f_equal. unfold index. lia. }
  change (for_int n (λ i, for_int n (inner i)) (State m0 lg0) = None).
  rewrite <- (swept_start res f n R0 m0 lg0) by done. fold sw.
  apply (for_int_fail _ n (L `div` n) _ (sw (index n (L `div` n) 0))); [lia| |].
  - edestruct (for_int_inv (λ i σ, σ = sw (index n i 0)) (L `div` n)
      (λ i, for_int n (inner i)) (sw 0)) as (t & -> & ->);
      [lia|done| |done].
    intros i σ Hi ->. exists (sw (index n (i + 1) 0)). split; [|done].
    rewrite (Hinner i n) by (unfold index; nia).
    f_equal. f_equal. unfold index. lia.
  - apply (for_int_fail _ n (L `mod` n) _ (sw L)); [lia| |].
    + rewrite (Hinner (L `div` n) (L `mod` n)) by (unfold index; lia).
      f_equal. f_equal. unfold index. lia.
    + assert (index n (L `div` n) (L `mod` n) = L) as HiL by (unfold index; lia).
      pose proof (Hcomp (L `div` n) (L `mod` n) Hi0 Hj0) as Hc.
      rewrite HiL in Hc. unfold inner, sw. rewrite Hc, HiL. simpl.
      by apply store_swept_end.
Qed.

(** X4 (no bounds check): the routines do not check the size of their
    destination.  With operands of [n²] elements and a destination of
    fewer, each of them ends in a store outside the destination, which
    has no defined result. *)
Theorem short_destination_out_of_bounds mul1 mul2 res n (σ : state) A B R0 :
  0 < n → res ≠ mul1 → res ≠ mul2 →
  holds n σ mul1 A → holds n σ mul2 B →
  vecs σ !! res = Some R0 → Z.of_nat (length R0) < n * n →
  buildTranspose mul2 res n σ = None ∧
  multiplyNaive dzero dadd dmul mul1 mul2 res n σ = None ∧
  multiplyWithTranspose dzero dadd dmul mul1 mul2 res n σ = None.
Proof.
  intros Hn Hn1 Hn2 [HA HlA] [HB HlB] HR Hshort. split; [|split].
  - unfold buildTranspose, enter.
    apply (sweep_short (λ i j, load mul2 (index n j i))
             (λ i j, cell dzero B (index n j i)) res n _ _ R0); try done.
    intros i j Hi Hj. pose proof (index_bound n j i Hj Hi).
    erewrite load_vec by (simpl; rewrite lookup_insert_ne by done; exact HB).
    apply at_cell. lia.
  - unfold multiplyNaive, enter.
    apply (sweep_short (dotNaive dzero dadd dmul mul1 mul2 n)
             (dot dzero dadd dmul A B n) res n _ _ R0); try done.
    intros i j Hi Hj. apply dotNaive_spec; try done; simpl;
      by rewrite lookup_insert_ne.
  - unfold multiplyWithTranspose, enter.
    apply (sweep_short (dotTransposed dzero dadd dmul mul1 mul2 n)
             (dot_rows dzero dadd dmul A B n) res n _ _ R0); try done.
    intros i j Hi Hj. apply dotTransposed_spec; try done; simpl;
      by rewrite lookup_insert_ne.
Qed.

End ShortDestination.

(** ** The harness beyond the claims *)

(** X7 (arguments accumulate): the mode of a concatenated argument list
    is the disjunction of the modes of its parts, so the order of the
    arguments does not matter and no argument switches a run back to
    the naive kernel. *)
Theorem transposeMode_app (l1 l2 : list string) :
  transposeMode (l1 ++ l2) = transposeMode l1 || transposeMode l2 ∧
  transposeMode (l2 ++ l1) = transposeMode (l1 ++ l2).
Proof.
  assert (∀ a b, transposeMode (a ++ b) = transposeMode a || transposeMode b) as Happ.
  { intros a b. unfold transposeMode. rewrite !fold_left_orb. simpl.
    by rewrite existsb_app. }
  split; [apply Happ|]. rewrite !Happ. apply orb_comm.
Qed.

Section MoreHarness.
Context {D rng : Type}.
Variable dzero : D.
Variables dadd dmul : D → D → D.
Variable mt19937 : Z → rng.
Variable dist : rng → D * rng.
Variable bits : D → Z.

Local Abbreviation state := (@state D).
Local Abbreviation draws := (draws dist).
Local Abbreviation input1 := (input1 mt19937 dist).
Local Abbreviation input2 := (input2 mt19937 dist).
Local Abbreviation product := (product dzero dadd dmul).
Local Abbreviation transposed := (transposed dzero).
Local Abbreviation total := (total dzero dadd).
Local Abbreviation main_n := (main_n dzero dadd dmul mt19937 dist bits).


Lemma Forall_draws (P : D → Prop) k g :
  (∀ g', P (dist g').1) → Forall P (draws k g).1.
Proof.
  intros HP. revert g. induction k as [|k IH]; intros g; simpl; [constructor|].
  pose proof (HP g) as Hg. destruct (dist g) as [x g']. specialize (IH g').
  destruct (draws k g'). simpl in *. by constructor.
Qed.




End MoreHarness.

(** On binary64 with draws in the unit interval, a run prints the bit
    pattern of a finite double between 0 and [n³] and enters the one
    kernel its mode selects. *)
Lemma main_n_checksum_within {rng : Type} (mt19937 : Z → rng)
    (dist : rng → B64.double * rng) n e :
  0 < n → n * n * n < 2 ^ 53 →
  (∀ g, B64.in_unit (dist g).1 = true) →
  ∃ out c,
    main_n B64.zero B64.add B64.mul mt19937 dist B64.bits n e = Some out ∧
    status out = 0 ∧
    stdout out
    = report (if transposeMode (argv e) then "transposed" else "naive")
             (elapsed_ms e) (B64.bits c) ∧
    B64.within c (n * n * n) = true ∧
    multiplications (log (final out))
    = [if transposeMode (argv e) then MultiplyWithTranspose else MultiplyNaive].
Proof.
  intros Hn Hcube Hdist.
  destruct (main_n_run B64.zero B64.add B64.mul mt19937 dist B64.bits n e Hn)
    as (σ & Hrun & _ & _ & _ & Hcalls).
  eexists _, _. split; [exact Hrun|]. split; [done|]. split; [done|].
  split.
  - set (A := input1 mt19937 dist seed n). set (B := input2 mt19937 dist seed n).
    assert (n < 2 ^ 53) as Hn53 by nia.
    set (R := product B64.zero B64.add B64.mul A B n).
    assert (Z.of_nat (length R) = n * n) as HlR by (apply length_product; lia).
    replace (n * n * n) with (n * Z.of_nat (length R)) by lia.
    apply b64_total_within; [lia| |rewrite HlR; lia].
    unfold R. rewrite product_eq. apply Forall_tabulate; [done|].
    intros i j Hi Hj. apply b64_dot_within; try done.
    + apply (Forall_draws dist (λ x, B64.in_unit x = true)), Hdist.
    + apply (Forall_draws dist (λ x, B64.in_unit x = true)), Hdist.
    + apply length_input1.
    + apply length_input2.
  - simpl. unfold multiplications. rewrite Hcalls.
    by destruct (transposeMode (argv e)).
Qed.


(** X16 (the program as it is, [n = 2000]): on binary64 with a
    distribution whose every draw is a double in [[0, 1)], [main]
    returns for every argument list, entropy and clock, with status 0;
    it enters exactly one multiplication kernel and prints the label of
    its mode and the bit pattern of a finite checksum between 0 and
    [2000³ = 8 000 000 000]. *)
Theorem main_on_binary64 {rng : Type} (mt19937 : Z → rng)
    (dist : rng → B64.double * rng) e :
  (∀ g, B64.in_unit (dist g).1 = true) →
  ∃ out c,
    main B64.zero B64.add B64.mul mt19937 dist B64.bits e = Some out ∧
    status out = 0 ∧
    stdout out
    = report (if transposeMode (argv e) then "transposed" else "naive")
             (elapsed_ms e) (B64.bits c) ∧
    B64.within c 8000000000 = true ∧
    multiplications (log (final out))
    = [if transposeMode (argv e) then MultiplyWithTranspose else MultiplyNaive].
Proof.
  intros Hdist. unfold main.
  exact (main_n_checksum_within mt19937 dist 2000 e ltac:(lia) ltac:(lia) Hdist).
Qed.

(** ** The cache flusher *)

Lemma sumZ_app (xs ys : list Z) : sumZ (xs ++ ys) = sumZ xs + sumZ ys.
Proof. unfold sumZ. induction xs as [|x xs IH]; simpl; lia. Qed.

Lemma sumZ_replicate_0 (k : nat) : sumZ (replicate k 0) = 0.
Proof. unfold sumZ. induction k as [|k IH]; simpl; lia. Qed.

Lemma flushSum_spec (buffer : list Z) :
  flushSum buffer = Some (sumZ buffer `mod` 2 ^ 64).
Proof.
  unfold flushSum.
  edestruct (for_int_inv
    (λ k sum, sum = sumZ (take (Z.to_nat k) buffer) `mod` 2 ^ 64)
    (Z.of_nat (length buffer))
    (λ i sum, b ← at_ buffer i; Some ((sum + b) `mod` 2 ^ 64)) 0)
    as (t & Ht & ->); [lia|done| |].
  - intros k sum Hk ->. rewrite at_lookup by lia.
    destruct (lookup_lt_is_Some_2 buffer (Z.to_nat k)) as [b Hb]; [lia|].
    rewrite Hb. simpl. eexists. split; [done|].
    replace (Z.to_nat (k + 1)) with (Datatypes.S (Z.to_nat k)) by lia.
    rewrite (take_S_r _ _ _ Hb), sumZ_app. unfold sumZ at 3. simpl.
    rewrite Z.add_0_r. apply Zplus_mod_idemp_l.
  - rewrite Ht. by rewrite Nat2Z.id, firstn_all.
Qed.

(** X11 (flushCache): the loop of [flushCache] stays inside its buffer
    and leaves in [sum] the sum of the bytes modulo [2^64], whatever the
    buffer holds; over the value-initialised buffer of the routine the
    sum is 0, and the size [300 * 1024 * 1024] is within [int]. *)
Theorem flushCache_sum :
  (∀ buffer, flushSum buffer = Some (sumZ buffer `mod` 2 ^ 64)) ∧
  flushCache = Some 0 ∧
  0 < flushSize ≤ INT_MAX.
Proof.
  split; [apply flushSum_spec|]. split; [|done].
  unfold flushCache. by rewrite flushSum_spec, sumZ_replicate_0.
Qed.

(** ** The branch-prediction demonstration *)

Lemma branch_fill_spec size rand (σ : @state Z) junk :
  0 ≤ size → vecs σ !! Branch.data = Some junk →
  Z.of_nat (length junk) = size →
  Branch.fill_data size rand σ
  = Some (State (<[Branch.data := (λ c, Z.rem (rand c) 256) <$> seqZ 0 size]>
                   (vecs σ))
                (log σ ++ (Store Branch.data <$> seqZ 0 size))).
Proof.
  intros Hsize Hv Hlen. unfold Branch.fill_data.
  set (f := λ c, Z.rem (rand c) 256).
  edestruct (for_int_inv
    (λ k (τ : @state Z),
       τ = State (<[Branch.data := (f <$> seqZ 0 k) ++ drop (Z.to_nat k) junk]>
                    (vecs σ))
                 (log σ ++ (Store Branch.data <$> seqZ 0 k)))
    size (λ c τ, store Branch.data c (f c) τ) σ) as (t & Ht & Hfin);
    [done| | |].
  - rewrite seqZ_nil by lia. simpl. rewrite app_nil_r, insert_id by done.
    by destruct σ.
  - intros k τ Hk ->. unfold store. simpl. rewrite lookup_insert_eq. simpl.
    rewrite decide_True
      by (rewrite length_app, length_fmap, length_seqZ, length_drop; lia).
    eexists. split; [done|]. f_equal.
    + rewrite insert_insert_eq. f_equal.
      destruct (lookup_lt_is_Some_2 junk (Z.to_nat k)) as [y Hy]; [lia|].
      rewrite insert_app_r_alt by (rewrite length_fmap, length_seqZ; lia).
      rewrite length_fmap, length_seqZ, Nat.sub_diag, (drop_S junk y _ Hy).
      simpl. rewrite seqZ_app, fmap_app, <- app_assoc by lia.
      replace (Z.to_nat (k + 1)) with (Datatypes.S (Z.to_nat k)) by lia.
      by f_equal.
    + rewrite seqZ_app, fmap_app, app_assoc by lia. by f_equal.
  - etransitivity; [exact Ht|]. rewrite Hfin. do 3 f_equal.
    rewrite drop_ge by lia. by rewrite app_nil_r.
Qed.

Lemma rem_byte r : 0 ≤ r → Z.rem r 256 = r `mod` 256 ∧ 0 ≤ r `mod` 256 ≤ 255.
Proof.
  intros Hr. rewrite Z.rem_mod_nonneg by lia.
  pose proof (Z.mod_pos_bound r 256). lia.
Qed.

Lemma branch_bytes_eq size rand :
  (∀ c, 0 ≤ c < size → 0 ≤ rand c) →
  (λ c, Z.rem (rand c) 256) <$> seqZ 0 size = Branch.bytes size rand.
Proof.
  intros Hrand. unfold Branch.bytes. apply list_fmap_ext.
  intros k c Hk. apply lookup_seqZ in Hk as [-> Hk].
  by destruct (rem_byte (rand (0 + Z.of_nat k)) (Hrand (0 + Z.of_nat k) ltac:(lia))) as [-> _].
Qed.

Lemma branch_bytes_range size rand :
  Forall (λ x, 0 ≤ x ≤ 255) (Branch.bytes size rand).
Proof.
  unfold Branch.bytes. apply Forall_fmap, Forall_forall. intros c _. simpl.
  pose proof (Z.mod_pos_bound (rand c) 256). lia.
Qed.

(** X12 (the fill loop): for a [rand] that returns non-negative values
    and an array of [size] elements, the fill loop succeeds and
    overwrites every element: afterwards [data[c] = rand_c mod 256] for
    every [c], a value in [[0, 255]], and nothing of the uninitialised
    contents is left. *)
Theorem branch_fill_bytes size rand junk :
  0 ≤ size → Z.of_nat (length junk) = size → (∀ c, 0 ≤ c < size → 0 ≤ rand c) →
  ∃ σ xs,
    Branch.fill_data size rand (State {[Branch.data := junk]} []) = Some σ ∧
    vecs σ !! Branch.data = Some xs ∧
    Z.of_nat (length xs) = size ∧
    (∀ c, 0 ≤ c < size → at_ xs c = Some (rand c `mod` 256)) ∧
    Forall (λ x, 0 ≤ x ≤ 255) xs.
Proof.
  intros Hsize Hlen Hrand.
  rewrite (branch_fill_spec size rand _ junk) by (done || apply lookup_singleton_eq).
  rewrite branch_bytes_eq by done.
  eexists _, (Branch.bytes size rand). split; [done|]. simpl.
  rewrite lookup_insert_eq. split; [done|].
  unfold Branch.bytes at 1 2. rewrite length_fmap, length_seqZ.
  split; [lia|]. split; [|apply branch_bytes_range].
  intros c Hc. rewrite at_lookup, list_lookup_fmap, lookup_seqZ_lt by lia.
  simpl. do 3 f_equal. lia.
Qed.

Lemma sumZ_Permutation (xs ys : list Z) : xs ≡ₚ ys → sumZ xs = sumZ ys.
Proof. unfold sumZ. induction 1; simpl; lia. Qed.

Lemma high_sum_Permutation (xs ys : list Z) :
  xs ≡ₚ ys → Branch.high_sum xs = Branch.high_sum ys.
Proof.
  intros Hp. unfold Branch.high_sum. apply sumZ_Permutation.
  induction Hp; simpl; repeat case_bool_decide; eauto using Permutation.
Qed.

Lemma high_sum_app (xs ys : list Z) :
  Branch.high_sum (xs ++ ys) = Branch.high_sum xs + Branch.high_sum ys.
Proof. unfold Branch.high_sum. by rewrite List.filter_app, sumZ_app. Qed.

Lemma high_sum_bounds (xs : list Z) :
  Forall (λ x, 0 ≤ x ≤ 255) xs →
  0 ≤ Branch.high_sum xs ≤ 255 * Z.of_nat (length xs).
Proof.
  unfold Branch.high_sum, sumZ.
  induction 1 as [|x xs Hx Hxs IH]; simpl; [lia|].
  case_bool_decide; simpl; lia.
Qed.

Lemma high_sum_single (x : Z) :
  Branch.high_sum [x] = if decide (128 ≤ x) then x else 0.
Proof.
  unfold Branch.high_sum, sumZ. simpl.
  case_bool_decide; case_decide; simpl; lia.
Qed.

(** One pass adds the elements that are at least 128, and never leaves
    the range of [long long] if the total does not. *)
Lemma branch_pass_spec size (σ : @state Z) xs sum :
  vecs σ !! Branch.data = Some xs → Z.of_nat (length xs) = size →
  Forall (λ x, 0 ≤ x ≤ 255) xs →
  0 ≤ sum → sum + Branch.high_sum xs ≤ Branch.LLONG_MAX →
  Branch.pass size σ sum = Some (sum + Branch.high_sum xs).
Proof.
  intros Hv Hlen Hxs Hsum Hmax. unfold Branch.pass.
  edestruct (for_int_inv
    (λ c t, t = sum + Branch.high_sum (take (Z.to_nat c) xs)) size
    (λ c sum, x ← load Branch.data c σ;
              if decide (128 ≤ x) then Branch.add_ll sum x else Some sum)
    sum) as (t & Ht & Hfin); [lia| | |].
  - change (take (Z.to_nat 0) xs) with (@nil Z). unfold Branch.high_sum, sumZ.
    simpl. lia.
  - intros c t Hc ->. cbv beta.
    rewrite (load_vec _ _ _ xs Hv), at_lookup by lia.
    destruct (lookup_lt_is_Some_2 xs (Z.to_nat c)) as [x Hx]; [lia|].
    rewrite Hx. simpl.
    replace (Z.to_nat (c + 1)) with (Datatypes.S (Z.to_nat c)) by lia.
    rewrite (take_S_r _ _ _ Hx), high_sum_app.
    assert (Branch.high_sum xs
            = Branch.high_sum (take (Z.to_nat c) xs)
              + (Branch.high_sum [x] + Branch.high_sum (drop (Datatypes.S (Z.to_nat c)) xs)))
      as Hsplit.
    { rewrite <- !high_sum_app. simpl. rewrite <- (drop_S _ _ _ Hx).
      by rewrite take_drop. }
    pose proof (high_sum_bounds (take (Z.to_nat c) xs)
                  ltac:(by apply Forall_take)) as [? _].
    pose proof (high_sum_bounds (drop (Datatypes.S (Z.to_nat c)) xs)
                  ltac:(by apply Forall_drop)) as [? _].
    pose proof (Forall_lookup_1 _ _ _ _ Hxs Hx) as Hxr. simpl in Hxr.
    rewrite high_sum_single in *.
    case_decide.
    + unfold Branch.add_ll. rewrite decide_True
        by (unfold Branch.LLONG_MIN, Branch.LLONG_MAX in *; lia).
      eexists. split; [done|]. lia.
    + eexists. split; [done|]. lia.
  - rewrite Ht, Hfin. by rewrite take_ge by lia.
Qed.

Lemma branch_test_spec iters size (σ : @state Z) xs :
  0 ≤ iters →
  vecs σ !! Branch.data = Some xs → Z.of_nat (length xs) = size →
  Forall (λ x, 0 ≤ x ≤ 255) xs →
  iters * Branch.high_sum xs ≤ Branch.LLONG_MAX →
  Branch.test iters size σ = Some (iters * Branch.high_sum xs).
Proof.
  intros Hit Hv Hlen Hxs Hmax. unfold Branch.test.
  pose proof (high_sum_bounds xs Hxs) as [Hlo _].
  edestruct (for_int_inv (λ i t, t = i * Branch.high_sum xs) iters
    (λ _ sum, Branch.pass size σ sum) 0) as (t & Ht & ->); [done|lia| |done].
  intros i t Hi ->. eexists. split.
  - apply (branch_pass_spec size σ xs); try done; nia.
  - lia.
Qed.

Lemma branch_main_spec iters size rand junk elapsed sorting :
  0 ≤ iters → 0 ≤ size → Z.of_nat (length junk) = size →
  (∀ c, 0 ≤ c < size → 0 ≤ rand c) → iters * size * 255 ≤ Branch.LLONG_MAX →
  let sum := iters * Branch.high_sum (Branch.bytes size rand) in
  Branch.main_n iters size rand junk elapsed sorting
  = Some (sum, elapsed +:+ newline +:+ "sum = " +:+ pretty sum +:+ newline)
  ∧ 0 ≤ sum ≤ iters * size * 255.
Proof.
  intros Hit Hsize Hlen Hrand Hmax sum. unfold Branch.main_n.
  rewrite (branch_fill_spec size rand _ junk) by (done || apply lookup_singleton_eq).
  rewrite branch_bytes_eq by done. with_strategy opaque [Branch.test] simpl.
  set (xs := Branch.bytes size rand) in *.
  pose proof (branch_bytes_range size rand) as Hxs. fold xs in Hxs.
  assert (Z.of_nat (length xs) = size) as Hlx.
  { unfold xs, Branch.bytes. rewrite length_fmap, length_seqZ. lia. }
  pose proof (high_sum_bounds xs Hxs) as Hb. rewrite Hlx in Hb.
  assert (0 ≤ sum ≤ iters * size * 255) as Hsum by (unfold sum; nia).
  split; [|done].
  destruct sorting.
  - unfold Branch.sort_data. with_strategy opaque [Branch.test] simpl.
    rewrite lookup_insert_eq. with_strategy opaque [Branch.test] simpl.
    pose proof (merge_sort_Permutation Z.le xs) as Hperm.
    match goal with |- context [Branch.test _ _ ?τ] =>
      pose proof (branch_test_spec iters size τ (merge_sort Z.le xs)) as Htest
    end.
    rewrite Htest; simpl.
    + by rewrite (high_sum_Permutation _ _ Hperm).
    + done.
    + by rewrite lookup_insert_eq.
    + by rewrite Hperm.
    + by rewrite Hperm.
    + rewrite (high_sum_Permutation _ _ Hperm). fold sum. lia.
  - with_strategy opaque [Branch.test] simpl.
    match goal with |- context [Branch.test _ _ ?τ] =>
      pose proof (branch_test_spec iters size τ xs) as Htest
    end.
    rewrite Htest; simpl; try done; fold sum; lia.
Qed.

(** X13 (the printed sum): for non-negative [rand] values, an array of
    [size] elements and [iters * size * 255] within [long long], the
    program returns [iters] times the sum of the generated bytes that
    are at least 128 and prints it after ["sum = "]; no addition
    overflows and no access leaves the array.  The constants of the
    program, 100000 passes over 32768 elements, satisfy the bound. *)
Theorem branch_sum iters size rand junk elapsed :
  0 ≤ iters → 0 ≤ size → Z.of_nat (length junk) = size →
  (∀ c, 0 ≤ c < size → 0 ≤ rand c) → iters * size * 255 ≤ Branch.LLONG_MAX →
  let sum := iters * Branch.high_sum (Branch.bytes size rand) in
  Branch.main_n iters size rand junk elapsed true
  = Some (sum, elapsed +:+ newline +:+ "sum = " +:+ pretty sum +:+ newline) ∧
  0 ≤ sum ≤ iters * size * 255 ∧
  Branch.passes * Branch.arraySize * 255 ≤ Branch.LLONG_MAX.
Proof.
  intros Hit Hsize Hlen Hrand Hmax sum.
  destruct (branch_main_spec iters size rand junk elapsed true) as [Hrun Hb];
    try done.
Qed.

(** X14 (sorting changes nothing but the time): under the same
    conditions the program without its call of [std::sort] returns and
    prints the same sum as the program with it. *)
Theorem branch_sort_irrelevant iters size rand junk elapsed :
  0 ≤ iters → 0 ≤ size → Z.of_nat (length junk) = size →
  (∀ c, 0 ≤ c < size → 0 ≤ rand c) → iters * size * 255 ≤ Branch.LLONG_MAX →
  is_Some (Branch.main_n iters size rand junk elapsed true) ∧
  Branch.main_n iters size rand junk elapsed false
  = Branch.main_n iters size rand junk elapsed true.
Proof.
  intros Hit Hsize Hlen Hrand Hmax.
  destruct (branch_main_spec iters size rand junk elapsed true) as [-> _];
    try done.
  destruct (branch_main_spec iters size rand junk elapsed false) as [-> _];
    try done.
Qed.

Lemma sorted_threshold (xs : list Z) :
  StronglySorted Z.le xs →
  ∃ k : nat, (k ≤ length xs)%nat ∧
    ∀ (c : nat) x, xs !! c = Some x → (128 ≤ x ↔ (k ≤ c)%nat).
Proof.
  induction 1 as [|a xs Hs IH Ha].
  - exists 0%nat. split; [done|]. by intros c x.
  - destruct IH as (k & Hk & IH). destruct (decide (128 ≤ a)) as [Hge|Hlt].
    + exists 0%nat. split; [simpl; lia|]. intros c x Hx.
      split; [lia|intros _]. destruct c as [|c]; simpl in Hx.
      * by injection Hx as <-.
      * rewrite Forall_forall in Ha.
        pose proof (Ha x (list_elem_of_lookup_2 _ _ _ Hx)). lia.
    + exists (Datatypes.S k). split; [simpl; lia|]. intros c x Hx.
      destruct c as [|c]; simpl in Hx.
      * injection Hx as <-. lia.
      * rewrite (IH c x Hx). lia.
Qed.

(** X15 (why the sorted run is fast): after the fill and the sort, the
    array is in ascending order and the test [data[c] >= 128] changes
    its outcome at most once in a pass: there is a position [k] with the
    test false at every [c < k] and true at every [c >= k]. *)
Theorem branch_flips_once size rand junk :
  0 ≤ size → Z.of_nat (length junk) = size → (∀ c, 0 ≤ c < size → 0 ≤ rand c) →
  ∃ σ xs k,
    Branch.fill_data size rand (State {[Branch.data := junk]} [])
      ≫= Branch.sort_data = Some σ ∧
    vecs σ !! Branch.data = Some xs ∧
    StronglySorted Z.le xs ∧ xs ≡ₚ Branch.bytes size rand ∧
    0 ≤ k ≤ size ∧
    ∀ c, 0 ≤ c < size →
      ∃ x, load Branch.data c σ = Some x ∧ (128 ≤ x ↔ k ≤ c).
Proof.
  intros Hsize Hlen Hrand.
  rewrite (branch_fill_spec size rand _ junk) by (done || apply lookup_singleton_eq).
  rewrite branch_bytes_eq by done. simpl.
  unfold Branch.sort_data. simpl. rewrite lookup_insert_eq. simpl.
  set (xs := merge_sort Z.le (Branch.bytes size rand)).
  pose proof (merge_sort_Permutation Z.le (Branch.bytes size rand)) as Hperm.
  fold xs in Hperm.
  assert (StronglySorted Z.le xs) as Hsorted
    by apply (StronglySorted_merge_sort Z.le).
  assert (Z.of_nat (length xs) = size) as Hlx.
  { rewrite Hperm. unfold Branch.bytes. rewrite length_fmap, length_seqZ. lia. }
  destruct (sorted_threshold xs Hsorted) as (k & Hk & Hthr).
  eexists _, xs, (Z.of_nat k). split; [done|]. simpl.
  rewrite lookup_insert_eq. split; [done|]. split; [done|]. split; [done|].
  split; [lia|]. intros c Hc.
  destruct (lookup_lt_is_Some_2 xs (Z.to_nat c)) as [x Hx]; [lia|].
  exists x. unfold load. simpl. rewrite lookup_insert_eq. simpl.
  rewrite at_lookup by lia. split; [done|].
  rewrite (Hthr _ _ Hx). lia.
Qed.

(** ** The further properties at work on small instances *)

Lemma multiplyWithTranspose_cells_witness :
  ∃ σ' R written,
    multiplyWithTranspose B64.zero B64.add B64.mul mul1 mul2 resB 2 Demo.σ = Some σ' ∧
    holds 2 σ' resB R ∧
    (∀ i j, 0 ≤ i < 2 → 0 ≤ j < 2 →
       at_ R (index 2 i j)
       = Some (fold_left
                 (λ sum k, B64.add sum
                    (B64.mul (cell B64.zero Demo.A (index 2 i k))
                             (cell B64.zero Demo.B (index 2 j k))))
                 (seqZ 0 2) B64.zero)) ∧
    log σ' = log Demo.σ ++ Call MultiplyWithTranspose :: written ∧
    NoDup written ∧
    (∀ e, e ∈ written ↔
          ∃ i j, 0 ≤ i < 2 ∧ 0 ≤ j < 2 ∧ e = Store resB (index 2 i j)).
Proof.
  apply (multiplyWithTranspose_cells B64.zero B64.add B64.mul mul1 mul2 resB 2
           Demo.σ Demo.A Demo.B (zeros B64.zero 2));
    [lia | by vm_compute | done | done | split; reflexivity..].
Defined.

(** Here the destination of the kernels is their own first operand. *)
Lemma routines_footprint_witness :
  (∃ σ', buildTranspose mul2 mul2T 2 Demo.σ = Some σ' ∧
         (∀ v, v ≠ mul2T → vecs σ' !! v = vecs Demo.σ !! v) ∧ sized 2 σ' mul2T ∧
         log σ' = log Demo.σ ++ Call BuildTranspose :: (Store mul2T <$> seqZ 0 (2 * 2))) ∧
  (∃ σ', multiplyNaive B64.zero B64.add B64.mul mul1 mul2 mul1 2 Demo.σ = Some σ' ∧
         (∀ v, v ≠ mul1 → vecs σ' !! v = vecs Demo.σ !! v) ∧ sized 2 σ' mul1 ∧
         log σ' = log Demo.σ ++ Call MultiplyNaive :: (Store mul1 <$> seqZ 0 (2 * 2))) ∧
  (∃ σ', multiplyWithTranspose B64.zero B64.add B64.mul mul1 mul2T mul1 2 Demo.σ = Some σ' ∧
         (∀ v, v ≠ mul1 → vecs σ' !! v = vecs Demo.σ !! v) ∧ sized 2 σ' mul1 ∧
         log σ' = log Demo.σ ++ Call MultiplyWithTranspose :: (Store mul1 <$> seqZ 0 (2 * 2))).
Proof.
  apply (routines_footprint B64.zero B64.add B64.mul mul1 mul2 mul2T mul1 2 Demo.σ);
    [lia | by vm_compute | eexists; split; reflexivity..].
Defined.


Lemma short_destination_out_of_bounds_witness :
  let σ := State (<[mul1 := Demo.A]> (<[mul2 := Demo.B]>
                    (<[resA := [B64.zero; B64.zero; B64.zero]]> ∅))) [] in
  buildTranspose mul2 resA 2 σ = None ∧
  multiplyNaive B64.zero B64.add B64.mul mul1 mul2 resA 2 σ = None ∧
  multiplyWithTranspose B64.zero B64.add B64.mul mul1 mul2 resA 2 σ = None.
Proof.
  apply (short_destination_out_of_bounds B64.zero B64.add B64.mul mul1 mul2 resA 2
           _ Demo.A Demo.B [B64.zero; B64.zero; B64.zero]);
    [lia | done | done | split; reflexivity | split; reflexivity
    | reflexivity | simpl; lia].
Defined.

Lemma multiplyWithTranspose_untransposed_witness :
  ∃ σ1 σ3 R,
    multiplyWithTranspose B64.zero B64.add B64.mul mul1 mul2 resA 2 Demo.σ = Some σ1 ∧
    buildTranspose mul2 mul2T 2 Demo.σ
      ≫= multiplyNaive B64.zero B64.add B64.mul mul1 mul2T resB 2 = Some σ3 ∧
    vecs σ1 !! resA = Some R ∧ vecs σ3 !! resB = Some R ∧
    R = product B64.zero B64.add B64.mul Demo.A (transposed B64.zero Demo.B 2) 2.
Proof.
  apply (multiplyWithTranspose_untransposed B64.zero B64.add B64.mul
           mul1 mul2 mul2T resA resB 2 Demo.σ Demo.A Demo.B
           (zeros B64.zero 2) (zeros B64.zero 2) (zeros B64.zero 2));
    [lia | by vm_compute | done | done | done | done | done | done | split; reflexivity..].
Defined.

Lemma buildTranspose_permutes_witness :
  ∃ σ' T,
    buildTranspose mul2 mul2T 2 Demo.σ = Some σ' ∧
    vecs σ' !! mul2T = Some T ∧ T ≡ₚ Demo.B.
Proof.
  apply (buildTranspose_permutes B64.zero mul2 mul2T 2 Demo.σ Demo.B
           (zeros B64.zero 2)); [lia | by vm_compute | done | split; reflexivity..].
Defined.



Lemma branch_fill_bytes_witness :
  let rand := λ c, 77 + 100 * c in
  ∃ σ xs,
    Branch.fill_data 5 rand (State {[Branch.data := [9; 9; 9; 9; 9]]} []) = Some σ ∧
    vecs σ !! Branch.data = Some xs ∧
    Z.of_nat (length xs) = 5 ∧
    (∀ c, 0 ≤ c < 5 → at_ xs c = Some (rand c `mod` 256)) ∧
    Forall (λ x, 0 ≤ x ≤ 255) xs.
Proof.
  apply (branch_fill_bytes 5 (λ c, 77 + 100 * c) [9; 9; 9; 9; 9]);
    [lia | reflexivity | intros c Hc; lia].
Defined.

Lemma branch_sum_witness :
  let rand := λ c, 77 + 100 * c in
  let sum := 3 * Branch.high_sum (Branch.bytes 5 rand) in
  Branch.main_n 3 5 rand [9; 9; 9; 9; 9] "0.5" true
  = Some (sum, "0.5" +:+ newline +:+ "sum = " +:+ pretty sum +:+ newline) ∧
  0 ≤ sum ≤ 3 * 5 * 255 ∧
  Branch.passes * Branch.arraySize * 255 ≤ Branch.LLONG_MAX.
Proof.
  apply (branch_sum 3 5 (λ c, 77 + 100 * c) [9; 9; 9; 9; 9] "0.5");
    [lia | lia | reflexivity | intros c Hc; lia | by vm_compute].
Defined.

Lemma branch_sort_irrelevant_witness :
  let rand := λ c, 77 + 100 * c in
  is_Some (Branch.main_n 3 5 rand [9; 9; 9; 9; 9] "0.5" true) ∧
  Branch.main_n 3 5 rand [9; 9; 9; 9; 9] "0.5" false
  = Branch.main_n 3 5 rand [9; 9; 9; 9; 9] "0.5" true.
Proof.
  apply (branch_sort_irrelevant 3 5 (λ c, 77 + 100 * c) [9; 9; 9; 9; 9] "0.5");
    [lia | lia | reflexivity | intros c Hc; lia | by vm_compute].
Defined.

Lemma branch_flips_once_witness :
  let rand := λ c, 77 + 100 * c in
  ∃ σ xs k,
    Branch.fill_data 5 rand (State {[Branch.data := [9; 9; 9; 9; 9]]} [])
      ≫= Branch.sort_data = Some σ ∧
    vecs σ !! Branch.data = Some xs ∧
    StronglySorted Z.le xs ∧ xs ≡ₚ Branch.bytes 5 rand ∧
    0 ≤ k ≤ 5 ∧
    ∀ c, 0 ≤ c < 5 →
      ∃ x, load Branch.data c σ = Some x ∧ (128 ≤ x ↔ k ≤ c).
Proof.
  apply (branch_flips_once 5 (λ c, 77 + 100 * c) [9; 9; 9; 9; 9]);
    [lia | reflexivity | intros c Hc; lia].
Defined.

Example branch_demo_run :
  Branch.main_n 3 5 (λ c, 77 + 100 * c) [9; 9; 9; 9; 9] "0.5" true
  = Some (1194, "0.5" +:+ newline +:+ "sum = 1194" +:+ newline).
Proof. vm_compute. reflexivity. Qed.

Lemma main_on_binary64_witness :
  let e := Env ["./benchmark"; "transpose"] 4242 77 9000077 in
  ∃ out c,
    main B64.zero B64.add B64.mul (λ s, s) half_dist B64.bits e = Some out ∧
    status out = 0 ∧
    stdout out
    = report (if transposeMode (argv e) then "transposed" else "naive")
             (elapsed_ms e) (B64.bits c) ∧
    B64.within c 8000000000 = true ∧
    multiplications (log (final out))
    = [if transposeMode (argv e) then MultiplyWithTranspose else MultiplyNaive].
Proof.
  apply (main_on_binary64 (λ s, s) half_dist). intros g. reflexivity.
Defined.
